(** * my_streamlink: from a captured curl command to a streamlink command

    A shallow embedding of [my_streamlink.py] and the properties of its
    pipeline: line-continuation normalisation, shell-like tokenisation,
    argument parsing, header filtering, command generation and the
    interactive front end.

    - A Python [str] is a [string]; a character is a code point below
      256, which is all that [ascii] can hold.  [str.isspace] and
      [str.lower] are given for those code points.
    - An exception is a result: a computation returns [Ok v] or
      [Raise e].
    - [shlex.split] and [ArgumentParser.parse_args] belong to the
      standard library of Python, not to the program: they are modelled
      after CPython 3.11, for the way the program calls them.
    - An [OrderedDict] is the list of its items in insertion order.
    - [main] runs over a world made of the text still to be read, what
      was written on the standard output, and the clipboard. *)

From Stdlib Require Import String Ascii List Bool Arith Lia.
Import ListNotations.

Local Open Scope list_scope.
Local Open Scope string_scope.

(** ** Exceptions *)

Inductive exn : Type :=
| ValueError
| AttributeError
| EOFError
| SystemExit (code : nat).

Inductive result (A : Type) : Type :=
| Ok (a : A)
| Raise (e : exn).

Arguments Ok {A} a.
Arguments Raise {A} e.

Definition bind {A B : Type} (c : result A) (k : A -> result B) : result B :=
  match c with
  | Ok a => k a
  | Raise e => Raise e
  end.

Definition rmap {A B : Type} (f : A -> B) (c : result A) : result B :=
  bind c (fun a => Ok (f a)).

Notation "x <- c ;; k" := (bind c (fun x => k))
  (at level 61, c at next level, right associativity).

(** ** The [str] methods the program calls *)

Module Py.

Definition newline : ascii := "010"%char.
Definition dquote : ascii := "034"%char.
Definition squote : ascii := "'"%char.
Definition backslash : ascii := "\"%char.

Definition chr (c : ascii) : string := String c EmptyString.

(** [s.startswith(p)] *)
Definition startswith (p s : string) : bool := String.prefix p s.

(** [s.endswith(p)]: some tail of [s] is [p]. *)
Fixpoint endswith (p s : string) : bool :=
  String.eqb p s ||
  match s with
  | EmptyString => false
  | String _ s' => endswith p s'
  end.

(** [sub in s] *)
Fixpoint contains (sub s : string) : bool :=
  String.prefix sub s ||
  match s with
  | EmptyString => false
  | String _ s' => contains sub s'
  end.

(** [s[1:]] *)
Definition drop_first (s : string) : string :=
  match s with
  | EmptyString => EmptyString
  | String _ s' => s'
  end.

(** [s[:-1]] *)
Fixpoint drop_last (s : string) : string :=
  match s with
  | EmptyString => EmptyString
  | String c s' =>
      match s' with
      | EmptyString => EmptyString
      | String _ _ => String c (drop_last s')
      end
  end.

(** [str.isspace] on one character, for code points below 256:
    TAB..CR, FS..US, SPACE, NEL and NBSP. *)
Definition isspace (c : ascii) : bool :=
  let n := nat_of_ascii c in
  (((9 <=? n) && (n <=? 13)) || ((28 <=? n) && (n <=? 32))
   || (n =? 133) || (n =? 160))%nat.

Fixpoint lstrip (s : string) : string :=
  match s with
  | EmptyString => EmptyString
  | String c s' => if isspace c then lstrip s' else s
  end.

Fixpoint rstrip (s : string) : string :=
  match s with
  | EmptyString => EmptyString
  | String c s' =>
      match rstrip s' with
      | EmptyString => if isspace c then EmptyString else chr c
      | String _ _ as r => String c r
      end
  end.

(** [s.strip()] *)
Definition strip (s : string) : string := rstrip (lstrip s).

(** [str.lower] on one character, for code points below 256: the ASCII
    capitals and the Latin-1 capitals (all of U+00C0..U+00DE but the
    multiplication sign) move up by 32. *)
Definition lower_char (c : ascii) : ascii :=
  let n := nat_of_ascii c in
  if (((65 <=? n) && (n <=? 90))
      || ((192 <=? n) && (n <=? 222) && negb (n =? 215)))%nat
  then ascii_of_nat (n + 32)
  else c.

Fixpoint lower (s : string) : string :=
  match s with
  | EmptyString => EmptyString
  | String c s' => String (lower_char c) (lower s')
  end.

(** [sep.join(l)] *)
Definition join (sep : string) (l : list string) : string :=
  String.concat sep l.

(** When [p] is a prefix of [s], what follows it. *)
Fixpoint drop_prefix (p s : string) : option string :=
  match p with
  | EmptyString => Some s
  | String a p' =>
      match s with
      | EmptyString => None
      | String b s' => if Ascii.eqb a b then drop_prefix p' s' else None
      end
  end.

(** [s.split(sep, 1)] for a non-empty [sep]: one element when [sep]
    does not occur, else the text before and after its first
    occurrence. *)
Fixpoint split1 (sep s : string) : list string :=
  match drop_prefix sep s with
  | Some rest => [EmptyString; rest]
  | None =>
      match s with
      | EmptyString => [EmptyString]
      | String c s' =>
          match split1 sep s' with
          | [a; b] => [String c a; b]
          | _ => [s]
          end
      end
  end.

(** [s.replace(old, new)] scans from the left and replaces every
    occurrence that does not overlap an earlier one.  [skip] counts the
    characters of a replaced occurrence still to be passed over. *)
Fixpoint replace_from (old new : string) (skip : nat) (s : string) : string :=
  match s with
  | EmptyString => EmptyString
  | String c s' =>
      match skip with
      | S k => replace_from old new k s'
      | O =>
          if String.prefix old s
          then new ++ replace_from old new (String.length old - 1) s'
          else String c (replace_from old new 0 s')
      end
  end.

(** With an empty [old], Python puts [new] before every character and
    at the end. *)
Fixpoint replace_empty (new s : string) : string :=
  match s with
  | EmptyString => new
  | String c s' => new ++ String c (replace_empty new s')
  end.

Definition replace (old new s : string) : string :=
  match old with
  | EmptyString => replace_empty new s
  | String _ _ => replace_from old new 0 s
  end.

End Py.

(** ** [normalize_newlines] *)

(** The text [" \\\n"]: a space, a backslash and a newline. *)
Definition continuation : string :=
  String " " (String Py.backslash (String Py.newline EmptyString)).

Definition normalize_newlines (multiline_text : string) : string :=
  Py.replace continuation " " multiline_text.

(** A continuation directly followed by a backslash and a newline. *)
Definition stacked_continuation : string :=
  continuation ++ String Py.backslash (String Py.newline EmptyString).

(** ** [shlex.split(s, posix=False)]

    [split] builds a lexer with [posix=False], [whitespace_split=True] and
    no comment characters, and lists its tokens.  In that configuration
    [read_token] has three live states: between tokens, inside a token
    opened by a quote character, and inside a word.  A quote opens a
    token only at its first character; the quote characters stay in the
    token; the closing quote ends the token at once. *)

Module Shlex.

Inductive state : Type :=
| Blank                (* state ' ' *)
| Quoted (q : ascii)   (* state is the opening quote character *)
| Word.                (* state 'a' *)

(** [whitespace = ' \t\r\n'] *)
Definition whitespace (c : ascii) : bool :=
  Ascii.eqb c " " || Ascii.eqb c "009" || Ascii.eqb c "013"
  || Ascii.eqb c "010".

(** [quotes]: the single and the double quote. *)
Definition quotes (c : ascii) : bool :=
  Ascii.eqb c Py.squote || Ascii.eqb c Py.dquote.

(** The characters still to be read are [s]; [token] is the lexer's
    [self.token]. *)
Fixpoint tokens (st : state) (token : string) (s : string)
  : result (list string) :=
  match s with
  | EmptyString =>
      match st with
      | Blank => Ok []
      | Quoted _ => Raise ValueError        (* no closing quotation *)
      | Word => Ok [token]
      end
  | String nextchar s' =>
      match st with
      | Blank =>
          if whitespace nextchar then tokens Blank EmptyString s'
          else if quotes nextchar
               then tokens (Quoted nextchar) (Py.chr nextchar) s'
               else tokens Word (Py.chr nextchar) s'
      | Quoted q =>
          if Ascii.eqb nextchar q
          then rmap (cons (token ++ Py.chr nextchar))
                    (tokens Blank EmptyString s')
          else tokens (Quoted q) (token ++ Py.chr nextchar) s'
      | Word =>
          if whitespace nextchar
          then rmap (cons token) (tokens Blank EmptyString s')
          else tokens Word (token ++ Py.chr nextchar) s'
      end
  end.

Definition split (s : string) : result (list string) :=
  tokens Blank EmptyString s.

End Shlex.

(** ** The argument parser

    [parser] is an [argparse.ArgumentParser] with two positionals,
    [command] and [url], the option [-H]/[--header] (append, one
    argument), the flag [--compressed] (store_true) and the [-h]/[--help]
    that [ArgumentParser] adds by itself.  [parse_args] is modelled for
    that parser, after [argparse.py] of CPython 3.11: first every
    argument string is classified, then positionals and options are
    consumed from left to right.  An error makes argparse print a message
    and raise [SystemExit(2)]; the help action raises [SystemExit(0)].
    The messages are not modelled. *)

Module Argparse.

(** What an action stores.  [_get_values] removes the first [--] from
    the strings it is given; a single string left is stored as it is,
    anything else is stored as a list. *)
Inductive value : Type :=
| Str (s : string)
| Lst (l : list string).

Inductive action : Type := Help | Header | Compressed.

(** [parser._option_string_actions], in the order of registration. *)
Definition option_string_actions : list (string * action) :=
  [("-h", Help); ("--help", Help); ("-H", Header); ("--header", Header);
   ("--compressed", Compressed)].

Definition lookup_option (s : string) : option action :=
  option_map snd (find (fun p => String.eqb (fst p) s) option_string_actions).

(** [nargs] is [None] (one argument) for [Header] and 0 for the flags. *)
Definition takes_argument (a : action) : bool :=
  match a with
  | Header => true
  | Help | Compressed => false
  end.

Definition isdigit (c : ascii) : bool :=
  ((48 <=? nat_of_ascii c) && (nat_of_ascii c <=? 57))%nat.

(** [$] matches at the end and before a newline that ends the string. *)
Definition at_end (s : string) : bool :=
  String.eqb s EmptyString || String.eqb s (Py.chr Py.newline).

(** [\d+$] *)
Fixpoint digits_end (s : string) : bool :=
  match s with
  | EmptyString => false
  | String c s' => isdigit c && (at_end s' || digits_end s')
  end.

(** [\d*\.\d+$] *)
Fixpoint decimal_end (s : string) : bool :=
  match s with
  | EmptyString => false
  | String c s' =>
      (Ascii.eqb c "." && digits_end s') || (isdigit c && decimal_end s')
  end.

(** [_negative_number_matcher]: [^-\d+$|^-\d*\.\d+$] *)
Definition negative_number (s : string) : bool :=
  match s with
  | EmptyString => false
  | String c s' => Ascii.eqb c "-" && (digits_end s' || decimal_end s')
  end.

(** [_get_option_tuples], called on strings of two characters or more
    that start with [-]. *)
Definition get_option_tuples (option_string : string)
  : list (action * string * option string) :=
  match option_string with
  | String c0 (String c1 rest) =>
      if Ascii.eqb c1 "-" then
        let '(option_prefix, explicit_arg) :=
          match Py.split1 "=" option_string with
          | [p; e] => (p, Some e)
          | _ => (option_string, None)
          end in
        flat_map
          (fun '(os, a) =>
             if Py.startswith option_prefix os
             then [(a, os, explicit_arg)] else [])
          option_string_actions
      else
        let short_option_prefix := String c0 (Py.chr c1) in
        let short_explicit_arg := rest in
        flat_map
          (fun '(os, a) =>
             if String.eqb os short_option_prefix
             then [(a, os, Some short_explicit_arg)]
             else if Py.startswith option_string os
                  then [(a, os, None)] else [])
          option_string_actions
  | _ => []
  end.

Inductive parsed_optional : Type :=
| Positional
| Optional (a : option action) (option_string : string)
           (explicit_arg : option string)
| Ambiguous.

(** [_parse_optional] *)
Definition parse_optional (arg_string : string) : parsed_optional :=
  match arg_string with
  | EmptyString => Positional
  | String c0 _ =>
      if negb (Ascii.eqb c0 "-") then Positional
      else
        match lookup_option arg_string with
        | Some a => Optional (Some a) arg_string None
        | None =>
            if (String.length arg_string =? 1)%nat then Positional
            else
              let before_equals :=
                match Py.split1 "=" arg_string with
                | [option_string; explicit_arg] =>
                    option_map (fun a => (a, option_string, explicit_arg))
                               (lookup_option option_string)
                | _ => None
                end in
              match before_equals with
              | Some (a, option_string, explicit_arg) =>
                  Optional (Some a) option_string (Some explicit_arg)
              | None =>
                  match get_option_tuples arg_string with
                  | _ :: _ :: _ => Ambiguous
                  | [(a, option_string, explicit_arg)] =>
                      Optional (Some a) option_string explicit_arg
                  | [] =>
                      if negative_number arg_string then Positional
                      else if Py.contains " " arg_string then Positional
                      else Optional None arg_string None
                  end
              end
        end
  end.

(** An argument string before the first [--], with its letter in
    [arg_strings_pattern]: [A] or [O]. *)
Inductive item : Type :=
| A (arg_string : string)
| O (arg_string : string) (a : option action) (option_string : string)
    (explicit_arg : option string).

Definition is_option (it : item) : bool :=
  match it with
  | A _ => false
  | O _ _ _ _ => true
  end.

Definition arg_string_of (it : item) : string :=
  match it with
  | A s => s
  | O s _ _ _ => s
  end.

(** The first loop of [_parse_known_args]: the items up to the first
    [--], and the strings after it when there is one. *)
Fixpoint classify (arg_strings : list string)
  : result (list item * option (list string)) :=
  match arg_strings with
  | [] => Ok ([], None)
  | arg_string :: rest =>
      if String.eqb arg_string "--" then Ok ([], Some rest)
      else
        match parse_optional arg_string with
        | Ambiguous => Raise (SystemExit 2)
        | Positional =>
            r <- classify rest ;; Ok (A arg_string :: fst r, snd r)
        | Optional a option_string explicit_arg =>
            r <- classify rest ;;
            Ok (O arg_string a option_string explicit_arg :: fst r, snd r)
        end
  end.

(** The namespace under construction: the positionals consumed so far
    ([command] first), [header], [compressed], and [extras]. *)
Record pstate : Type := mkState {
  positionals : list value;
  st_header : list value;
  st_compressed : bool;
  extras : list string
}.

Definition initial : pstate := mkState [] [] false [].

Fixpoint remove_first (x : string) (l : list string) : list string :=
  match l with
  | [] => []
  | y :: l' => if String.eqb x y then l' else y :: remove_first x l'
  end.

(** [_get_values] for [nargs=None]. *)
Definition get_values (arg_strings : list string) : value :=
  match remove_first "--" arg_strings with
  | [arg_string] => Str arg_string
  | l => Lst l
  end.

Definition take_positional (arg_strings : list string) (st : pstate) : pstate :=
  mkState (positionals st ++ [get_values arg_strings])%list
          (st_header st) (st_compressed st) (extras st).

Definition add_extras (l : list string) (st : pstate) : pstate :=
  mkState (positionals st) (st_header st) (st_compressed st)
          (extras st ++ l)%list.

(** [take_action] for an option. *)
Definition take_action (a : action) (arg_strings : list string) (st : pstate)
  : result pstate :=
  match a with
  | Help => Raise (SystemExit 0)
  | Header =>
      Ok (mkState (positionals st)
                  (st_header st ++ [get_values arg_strings])%list
                  (st_compressed st) (extras st))
  | Compressed =>
      Ok (mkState (positionals st) (st_header st) true (extras st))
  end.

Fixpoint take_flags (l : list action) (st : pstate) : result pstate :=
  match l with
  | [] => Ok st
  | a :: l' => st' <- take_action a [] st ;; take_flags l' st'
  end.

(** Where the last action of an option string finds its arguments. *)
Inductive source : Type :=
| Explicit (explicit_arg : string)
| Following.

(** The [while True] of [consume_optional] when there is an explicit
    argument: an action that takes one argument uses it; a single-dash
    flag takes the next character as another single-dash option.  The
    result is the flags passed, the last action and the source of its
    arguments. *)
Fixpoint option_chain (a : action) (option_string explicit_arg : string)
  {struct explicit_arg} : result (list action * action * source) :=
  if takes_argument a then Ok ([], a, Explicit explicit_arg)
  else
    match option_string, explicit_arg with
    | String c0 (String c1 _), String e0 new_explicit_arg =>
        if negb (Ascii.eqb c1 "-") then
          let option_string' := String c0 (Py.chr e0) in
          match lookup_option option_string' with
          | Some a' =>
              match new_explicit_arg with
              | EmptyString => Ok ([a], a', Following)
              | String _ _ =>
                  r <- option_chain a' option_string' new_explicit_arg ;;
                  Ok (a :: fst (fst r), snd (fst r), snd r)
              end
          | None => Raise (SystemExit 2)
          end
        else Raise (SystemExit 2)
    | _, _ => Raise (SystemExit 2)
    end.

(** The letters of [arg_strings_pattern] past the last option: [A] and
    [-]. *)
Inductive pat : Type := pA | pDash.

Fixpoint dashes (p : list pat) : nat :=
  match p with
  | pDash :: p' => S (dashes p')
  | _ => 0
  end.

(** The regular expression of a positional with one argument: dashes,
    an [A], dashes, all greedy.  The length of its match at the head of
    a pattern. *)
Definition match_group (p : list pat) : option nat :=
  let d := dashes p in
  match skipn d p with
  | pA :: p' => Some (d + 1 + dashes p')
  | _ => None
  end.

Fixpoint match_groups (i : nat) (p : list pat) : option (list nat) :=
  match i with
  | 0 => Some []
  | S i' =>
      match match_group p with
      | None => None
      | Some n =>
          match match_groups i' (skipn n p) with
          | None => None
          | Some l => Some (n :: l)
          end
      end
  end.

(** [_match_arguments_partial] for [i] positionals of one argument. *)
Fixpoint match_arguments_partial (i : nat) (p : list pat) : list nat :=
  match i with
  | 0 => []
  | S i' =>
      match match_groups i p with
      | Some l => l
      | None => match_arguments_partial i' p
      end
  end.

(** [consume_positionals]: each count takes that many strings. *)
Fixpoint take_positionals (arg_counts : list nat) (arg_strings : list string)
  (st : pstate) : pstate * list string :=
  match arg_counts with
  | [] => (st, arg_strings)
  | arg_count :: counts' =>
      take_positionals counts' (skipn arg_count arg_strings)
                       (take_positional (firstn arg_count arg_strings) st)
  end.

(** Past the last option: the last [consume_positionals] and what is
    left goes to [extras]. *)
Definition consume_tail (its : list item) (after : option (list string))
  (st : pstate) : pstate :=
  let pattern :=
    (map (fun _ => pA) its ++
     match after with
     | None => []
     | Some l => pDash :: map (fun _ => pA) l
     end)%list in
  let arg_strings :=
    (map arg_string_of its ++
     match after with
     | None => []
     | Some l => "--" :: l
     end)%list in
  let arg_counts :=
    match_arguments_partial (2 - List.length (positionals st)) pattern in
  let '(st', rest) := take_positionals arg_counts arg_strings st in
  add_extras rest st'.

(** An [A] before the last option: a positional while one is missing,
    else an extra. *)
Definition take_argument (s : string) (st : pstate) : pstate :=
  if (List.length (positionals st) <? 2)%nat
  then take_positional [s] st
  else add_extras [s] st.

(** The actions of an option string, with or without an explicit
    argument. *)
Definition resolve (a : action) (option_string : string)
  (explicit_arg : option string) : result (list action * action * source) :=
  match explicit_arg with
  | Some e => option_chain a option_string e
  | None => Ok ([], a, Following)
  end.

(** The [while] loop of [_parse_known_args].  Before the last option
    the pattern has no [-], so [consume_positionals] gives each [A] to
    the next positional while there is one, and the other [A]s are
    extras. *)
Fixpoint consume (its : list item) (after : option (list string))
  (st : pstate) : result pstate :=
  match its with
  | [] => Ok (consume_tail [] after st)
  | it :: rest =>
      if negb (existsb is_option its) then Ok (consume_tail its after st)
      else
        match it with
        | A s => consume rest after (take_argument s st)
        | O s None _ _ => consume rest after (add_extras [s] st)
        | O s (Some a) option_string explicit_arg =>
            r <- resolve a option_string explicit_arg ;;
            let '(flags, last, src) := r in
            match src with
            | Explicit e =>
                st1 <- take_flags flags st ;;
                st2 <- take_action last [e] st1 ;;
                consume rest after st2
            | Following =>
                if takes_argument last then
                  match rest with
                  | A v :: rest' =>
                      st1 <- take_flags flags st ;;
                      st2 <- take_action last [v] st1 ;;
                      consume rest' after st2
                  | _ => Raise (SystemExit 2)
                  end
                else
                  st1 <- take_flags flags st ;;
                  st2 <- take_action last [] st1 ;;
                  consume rest after st2
            end
        end
  end.

Record Namespace : Type := mkNamespace {
  command : value;
  url : value;
  header : list value;
  compressed : bool
}.

(** [parse_args]: both positionals are required, and extras are an
    error. *)
Definition parse_args (arg_strings : list string) : result Namespace :=
  r <- classify arg_strings ;;
  st <- consume (fst r) (snd r) initial ;;
  match positionals st with
  | [c; u] =>
      match extras st with
      | [] => Ok (mkNamespace c u (st_header st) (st_compressed st))
      | _ :: _ => Raise (SystemExit 2)
      end
  | _ => Raise (SystemExit 2)
  end.

(** [format_help()] for this parser, the text that [print_help] writes:
    the program is named after the file, and the lines are those of a
    terminal of 70 columns or more. *)
Definition format_help : string :=
  String.concat (Py.chr Py.newline)
    ["usage: my_streamlink.py [-h] [-H HEADER] [--compressed] command url";
     EmptyString;
     "positional arguments:";
     "  command";
     "  url";
     EmptyString;
     "options:";
     "  -h, --help            show this help message and exit";
     "  -H HEADER, --header HEADER";
     "  --compressed";
     EmptyString].

End Argparse.

(** ** The ordered mapping of headers

    An [OrderedDict] is the list of its items in insertion order.
    Assigning to a key that is present replaces the value where the key
    stands; a new key goes to the end. *)

Definition odict : Type := list (string * string).

Fixpoint od_set (key value : string) (d : odict) : odict :=
  match d with
  | [] => [(key, value)]
  | (k, v) :: d' =>
      if String.eqb k key then (k, value) :: d'
      else (k, v) :: od_set key value d'
  end.

Fixpoint od_get (key : string) (d : odict) : option string :=
  match d with
  | [] => None
  | (k, v) :: d' => if String.eqb k key then Some v else od_get key d'
  end.

(** The position of a key in the iteration order. *)
Fixpoint od_index (key : string) (d : odict) : option nat :=
  match d with
  | [] => None
  | (k, _) :: d' =>
      if String.eqb k key then Some 0 else option_map S (od_index key d')
  end.

(** ** [parse_context] *)

Record ParsedContext : Type := mkParsedContext {
  url : string;
  headers : odict
}.

Definition exclude_headers : list string := ["sec-ch-ua"; "user-agent"].

(** [x in l] for a list of strings. *)
Definition list_mem (x : string) (l : list string) : bool :=
  existsb (String.eqb x) l.

Definition quote : string := Py.chr Py.squote.

(** The name of a header once the split is done: lines 57 and 58. *)
Definition clean_key (header_key : string) : string :=
  if Py.startswith quote header_key then Py.drop_first header_key
  else header_key.

(** Lines 59 and 60. *)
Definition unquote_end (header_value : string) : string :=
  if Py.endswith quote header_value then Py.drop_last header_value
  else header_value.

(** Lines 59 to 62: the value as it stands before the final [strip]. *)
Definition clean_value (header_value : string) : string :=
  let header_value := unquote_end header_value in
  if existsb (fun x => Py.contains x (Py.strip header_value))
             [" "; Py.chr Py.dquote]
  then quote ++ Py.strip header_value ++ quote
  else header_value.

(** Line 64: the lowercased name is in [exclude_headers]. *)
Definition excluded (header_key : string) : bool :=
  list_mem (Py.lower header_key) exclude_headers.

(** One turn of the loop over [parsed_args.header]. *)
Definition header_step (quoted_headers : odict) (curl_header : Argparse.value)
  : result odict :=
  match curl_header with
  | Argparse.Lst _ => Raise AttributeError      (* a list has no split *)
  | Argparse.Str s =>
      match Py.split1 ":" s with
      | [header_key; header_value] =>
          let header_key := clean_key header_key in
          let header_value := clean_value header_value in
          if negb (excluded header_key)
          then Ok (od_set header_key (Py.strip header_value) quoted_headers)
          else Ok quoted_headers
      | _ => Raise ValueError                    (* not enough values *)
      end
  end.

Fixpoint header_loop (l : list Argparse.value) (quoted_headers : odict)
  : result odict :=
  match l with
  | [] => Ok quoted_headers
  | curl_header :: l' =>
      d <- header_step quoted_headers curl_header ;; header_loop l' d
  end.

Definition clean_url (u : string) : string :=
  let u := if Py.startswith quote u then Py.drop_first u else u in
  if Py.endswith quote u then Py.drop_last u else u.

(** Lines 47 and 48. *)
Definition curl_args (curl_command : string) : result Argparse.Namespace :=
  tokens <- Shlex.split (normalize_newlines curl_command) ;;
  Argparse.parse_args tokens.

(** Lines 49 to 67. *)
Definition context_of (parsed_args : Argparse.Namespace) : result ParsedContext :=
  match Argparse.url parsed_args with
  | Argparse.Lst _ => Raise AttributeError      (* a list has no startswith *)
  | Argparse.Str u =>
      quoted_headers <- header_loop (Argparse.header parsed_args) [] ;;
      Ok (mkParsedContext (clean_url u) quoted_headers)
  end.

Definition parse_context (curl_command : string) : result ParsedContext :=
  parsed_args <- curl_args curl_command ;;
  context_of parsed_args.

(** ** [generate_streamlink_command] *)

Definition http_header (item : string * string) : list string :=
  ["--http-header"; fst item ++ "=" ++ snd item].

Definition streamlink_tokens (parsed_context : ParsedContext) : list string :=
  fold_left (fun tokens item => (tokens ++ http_header item)%list)
            (headers parsed_context)
            ["streamlink"; url parsed_context; "best"].

Definition generate_streamlink_command (parsed_context : ParsedContext) : string :=
  Py.join " " (streamlink_tokens parsed_context).

(** ** [main]

    The process reads its standard input as text, with the line ends
    already translated to newlines.  What it writes on its standard
    output, the prompts of [input], the lines of [print] and the help
    that the parser prints, is kept in order in [output]; what goes to
    the standard error is left out.  [clipboard.copy] is taken to
    succeed: it sets [clipboard]. *)

Record world : Type := mkWorld {
  stdin : string;
  output : list string;
  clipboard : option string
}.

(** A computation that reads and writes the world and may raise. *)
Definition IO (A : Type) : Type := world -> result A * world.

Definition ret {A : Type} (a : A) : IO A := fun w => (Ok a, w).

Definition iobind {A B : Type} (c : IO A) (k : A -> IO B) : IO B :=
  fun w =>
    match c w with
    | (Ok a, w') => k a w'
    | (Raise e, w') => (Raise e, w')
    end.

Notation "x <~ c ;; k" := (iobind c (fun x => k))
  (at level 61, c at next level, right associativity).

Definition lift {A : Type} (r : result A) : IO A := fun w => (r, w).

Definition write (s : string) : IO unit :=
  fun w => (Ok tt, mkWorld (stdin w) (output w ++ [s])%list (clipboard w)).

(** [print(s)] *)
Definition print (s : string) : IO unit := write (s ++ Py.chr Py.newline).

(** The next line of a text, with its newline when it has one, and the
    rest. *)
Fixpoint readline (s : string) : string * string :=
  match s with
  | EmptyString => (EmptyString, EmptyString)
  | String c s' =>
      if Ascii.eqb c Py.newline then (Py.chr c, s')
      else let '(line, rest) := readline s' in (String c line, rest)
  end.

(** What [input] reads from a text: the first line without its newline,
    and the rest; nothing when there is nothing to read. *)
Definition read_input (text : string) : option (string * string) :=
  match readline text with
  | (EmptyString, _) => None
  | (String _ _ as line, rest) =>
      Some (if Py.endswith (Py.chr Py.newline) line
            then Py.drop_last line else line,
            rest)
  end.

(** [input(prompt)]: the prompt is written, a line is read and returned
    without its newline; nothing to read is an [EOFError]. *)
Definition input (prompt : string) : IO string :=
  _ <~ write prompt ;;
  fun w =>
    match read_input (stdin w) with
    | None => (Raise EOFError, w)
    | Some (line, rest) => (Ok line, mkWorld rest (output w) (clipboard w))
    end.

(** The lines of a text, each with its newline; [current] is the part of
    the line read so far. *)
Fixpoint lines_of (current s : string) : list string :=
  match s with
  | EmptyString =>
      match current with
      | EmptyString => []
      | String _ _ => [current]
      end
  | String c s' =>
      if Ascii.eqb c Py.newline
      then (current ++ Py.chr c) :: lines_of EmptyString s'
      else lines_of (current ++ Py.chr c) s'
  end.

(** [sys.stdin.readlines()] *)
Definition readlines : IO (list string) :=
  fun w => (Ok (lines_of EmptyString (stdin w)),
            mkWorld EmptyString (output w) (clipboard w)).

(** [clipboard.copy(s)] *)
Definition clipboard_copy (s : string) : IO unit :=
  fun w => (Ok tt, mkWorld (stdin w) (output w) (Some s)).

(** Lines 117 to 121.  The first element of [line.split(sep)] is the text
    before the first [sep], as for [split1]. *)
Definition header_commands (url : string) (lines : list string) : list string :=
  fold_left
    (fun commands line =>
       let new_line := hd EmptyString (Py.split1 (Py.chr Py.newline) line) in
       List.app commands ["-H '" ++ new_line ++ "'"])
    lines
    ["curl '" ++ url ++ "'"].

(** [parse_context] as [main] calls it.  One thing in it writes on the
    standard output: the action of [-h] and [--help], which prints the
    help of the parser and then exits with status 0 ([take_action] of
    [Help], the one place where that status comes from).  The usage and
    the message that the parser writes before it exits with status 2 go
    to the standard error. *)
Definition call_parse_context (curl_command : string) : IO ParsedContext :=
  match parse_context curl_command with
  | Raise (SystemExit 0) =>
      _ <~ write Argparse.format_help ;; lift (Raise (SystemExit 0))
  | r => lift r
  end.

(** Lines 131 to 135. *)
Definition convert (curl_command : string) : IO unit :=
  result <~ call_parse_context curl_command ;;
  let streamlink_command := generate_streamlink_command result in
  _ <~ print streamlink_command ;;
  clipboard_copy streamlink_command.

Definition main : IO unit :=
  input_type <~ input "Request header: 0, curl command: 1  " ;;
  if String.eqb input_type "0" then
    url <~ input "Input request url: " ;;
    _ <~ print "Input request headers (End: Ctrl-z)" ;;
    all_lines <~ readlines ;;
    let lines := tl all_lines in
    convert (Py.join EmptyString (header_commands url lines))
  else if String.eqb input_type "1" then
    _ <~ print "Input curl command (End: Ctrl-z)" ;;
    lines <~ readlines ;;
    convert (Py.join EmptyString lines)
  else
    _ <~ print "not proper input" ;;
    ret tt.

(** The exit status of the process: 0 when [main] returns, the code of a
    [SystemExit], 1 for any other exception. *)
Definition exit_status (r : result unit) : nat :=
  match r with
  | Ok _ => 0
  | Raise (SystemExit code) => code
  | Raise _ => 1
  end.

Definition run (input_text : string) : result unit * world :=
  main (mkWorld input_text [] None).

(** ** Notions used in the statements *)

(** What follows the space of a continuation. *)
Definition after_space : string :=
  String Py.backslash (String Py.newline EmptyString).

Definition head (s : string) : option ascii :=
  match s with
  | EmptyString => None
  | String c _ => Some c
  end.

(** The name and the stored value that a header string gives rise to,
    when it has a colon. *)
Definition header_entry (curl_header : string) : option (string * string) :=
  match Py.split1 ":" curl_header with
  | [header_key; header_value] =>
      Some (clean_key header_key, Py.strip (clean_value header_value))
  | _ => None
  end.

(** The value of a header once the closing quote is gone and it is
    trimmed. *)
Definition trimmed (header_value : string) : string :=
  Py.strip (unquote_end header_value).

(** The text that one header adds to the generated command. *)
Definition header_text (item : string * string) : string :=
  " --http-header " ++ fst item ++ "=" ++ snd item.

(** A line of input text. *)
Definition line (s : string) : string := s ++ Py.chr Py.newline.

(** What the generator writes before the headers. *)
Definition command_head (parsed_context : ParsedContext) : string :=
  "streamlink " ++ url parsed_context ++ " best".

(** An item that is an option still waiting for its value. *)
Definition item_awaits_value (it : Argparse.item) : bool :=
  match it with
  | Argparse.O _ (Some a) option_string explicit_arg =>
      match Argparse.resolve a option_string explicit_arg with
      | Ok (_, last, Argparse.Following) => Argparse.takes_argument last
      | _ => false
      end
  | _ => false
  end.

(** The item of an argument string that is not [--]. *)
Definition item_of (arg_string : string) : option Argparse.item :=
  match Argparse.parse_optional arg_string with
  | Argparse.Ambiguous => None
  | Argparse.Positional => Some (Argparse.A arg_string)
  | Argparse.Optional a option_string explicit_arg =>
      Some (Argparse.O arg_string a option_string explicit_arg)
  end.

(** An argument string such as [-H] or [--header], which takes the next
    string as its value. *)
Definition awaits_value (arg_string : string) : bool :=
  match item_of arg_string with
  | Some it => item_awaits_value it
  | None => false
  end.

(** The part of the parser's state that [parse_context] reads. *)
Definition view (st : Argparse.pstate)
  : list Argparse.value * list Argparse.value * list string :=
  (Argparse.positionals st, Argparse.st_header st, Argparse.extras st).

Definition flag_item : Argparse.item :=
  Argparse.O "--compressed" (Some Argparse.Compressed) "--compressed" None.

(** Two results of the parser that [parse_context] cannot tell apart. *)
Definition agree (r r' : result Argparse.pstate) : Prop :=
  rmap view r = rmap view r'.

(** The last item of a list is an option waiting for its value. *)
Definition pending (its : list Argparse.item) : bool :=
  item_awaits_value (last its (Argparse.A EmptyString)).

(** The items of argument strings that have no [--] among them. *)
Fixpoint items_of (arg_strings : list string) : option (list Argparse.item) :=
  match arg_strings with
  | [] => Some []
  | arg_string :: rest =>
      match item_of arg_string, items_of rest with
      | Some it, Some its => Some (it :: its)
      | _, _ => None
      end
  end.

(** ** Inputs of the scenarios *)

Definition excluded_example : string :=
  "curl 'u' -H 'User-Agent: x' -H 'SEC-CH-UA: y' -H 'A: b'".

Definition scenario_2_command : string := "curl 'http://example.com' -H 'X-Test: a b'".

Definition scenario_4_command : string := "curl 'http://e.com' -H 'BadHeaderNoColon'".

Definition type_prompt : string := "Request header: 0, curl command: 1  ".

Definition url_prompt : string := "Input request url: ".

Definition headers_notice : string := line "Input request headers (End: Ctrl-z)".

Definition curl_notice : string := line "Input curl command (End: Ctrl-z)".

Definition repeated_command : string :=
  "curl 'http://e.com' -H 'Accept: a' -H 'X-Test: b' -H 'Accept: c'".

Definition case_command : string :=
  "curl 'http://e.com' -H 'Accept: a' -H 'accept: b'".

Definition scenario_3_text : string :=
  line "0" ++ line "http://e.com" ++ line "Accept: */*".

Definition scenario_3_output : string :=
  "streamlink http://e.com best --http-header Accept=*/*".

Definition header_command : string := "curl 'u' -H 'A: b'".

Definition flag_after_option_command : string := "curl 'u' -H --compressed 'A: b'".

Definition flag_before_option_command : string := "curl 'u' --compressed -H 'A: b'".

(** ** Notions used in the further properties *)

(** An argument string that looks like an option and is none of the
    parser's. *)
Definition unknown_option (arg_string : string) : bool :=
  match Argparse.parse_optional arg_string with
  | Argparse.Optional None _ _ => true
  | _ => false
  end.

Definition unknown_option_command : string := "curl 'http://e.com' -X POST".

(** A text between single quotes. *)
Definition quoted (s : string) : string := quote ++ s ++ quote.

(** The tokens of [curl], a quoted URL and one [-H] with a quoted header
    for each header text. *)
Definition curl_tokens (u : string) (header_texts : list string) : list string :=
  "curl" :: quoted u :: flat_map (fun h => ["-H"; quoted h]) header_texts.

(** The items of [-H] and a quoted header. *)
Definition header_pair (h : string) : list Argparse.item :=
  [Argparse.O "-H" (Some Argparse.Header) "-H" None; Argparse.A (quoted h)].

(** What [main] has read and written when it calls [convert], in mode 1
    and in mode 0. *)
Definition mode_1_world : world :=
  mkWorld EmptyString [type_prompt; curl_notice] None.

Definition mode_0_world : world :=
  mkWorld EmptyString [type_prompt; url_prompt; headers_notice] None.

(** The world after a command is printed and copied. *)
Definition printed (w : world) (streamlink_command : string) : world :=
  mkWorld (stdin w) (output w ++ [line streamlink_command])%list
          (Some streamlink_command).

(** The world after the parser has printed its help. *)
Definition helped (w : world) : world :=
  mkWorld (stdin w) (output w ++ [Argparse.format_help])%list (clipboard w).

(** How a run ends once [main] calls [convert] in the world [w], the
    help of the parser apart. *)
Definition outcome (w : world) (r : result ParsedContext) : result unit * world :=
  match r with
  | Ok ctx => (Ok tt, printed w (generate_streamlink_command ctx))
  | Raise e => (Raise e, w)
  end.

(** A text with no single quote and no newline in it. *)
Definition plain (s : string) : Prop :=
  Py.contains quote s = false /\ Py.contains (Py.chr Py.newline) s = false.

(** The pieces of a regular command line: a word, a header given with
    [-H] or with [--header], and the flag. *)
Inductive piece : Type :=
| Word (s : string)
| Short (v : string)
| Long (v : string)
| Flag.

Definition piece_tokens (p : piece) : list string :=
  match p with
  | Word s => [s]
  | Short v => ["-H"; v]
  | Long v => ["--header"; v]
  | Flag => ["--compressed"]
  end.

Definition piece_items (p : piece) : list Argparse.item :=
  match p with
  | Word s => [Argparse.A s]
  | Short v => [Argparse.O "-H" (Some Argparse.Header) "-H" None; Argparse.A v]
  | Long v =>
      [Argparse.O "--header" (Some Argparse.Header) "--header" None; Argparse.A v]
  | Flag => [flag_item]
  end.

Definition words (ps : list piece) : list string :=
  flat_map (fun p => match p with Word s => [s] | _ => [] end) ps.

Definition header_values (ps : list piece) : list string :=
  flat_map (fun p => match p with Short v | Long v => [v] | _ => [] end) ps.

Definition flagged (ps : list piece) : bool :=
  existsb (fun p => match p with Flag => true | _ => false end) ps.

(** The words and the header values of the piece do not start with a
    dash. *)
Definition undashed (p : piece) : Prop :=
  match p with
  | Word s | Short s | Long s => Py.startswith "-" s = false
  | Flag => True
  end.


(** * Properties *)

(** * Facts about strings *)

Section StringFacts.

Lemma prefix_cons (a b : ascii) (p s : string) :
  String.prefix (String a p) (String b s) = Ascii.eqb a b && String.prefix p s.
Proof.
  simpl. destruct (ascii_dec a b) as [->|Hne].
  - now rewrite Ascii.eqb_refl.
  - apply Ascii.eqb_neq in Hne. now rewrite Hne.
Qed.

Lemma prefix_nil (s : string) : String.prefix EmptyString s = true.
Proof. now destruct s. Qed.

Lemma prefix_app (p r : string) : String.prefix p (p ++ r) = true.
Proof.
  induction p as [|a p IH]; simpl.
  - apply prefix_nil.
  - destruct (ascii_dec a a); [exact IH | congruence].
Qed.

Lemma prefix_split (p s : string) :
  String.prefix p s = true -> exists r, s = p ++ r.
Proof.
  revert s. induction p as [|a p IH]; intros s H.
  - now exists s.
  - destruct s as [|b s]; [discriminate|].
    rewrite prefix_cons in H. apply andb_true_iff in H as [Hab Hp].
    apply Ascii.eqb_eq in Hab as ->.
    destruct (IH _ Hp) as [r ->]. now exists r.
Qed.

Lemma prefix_of_app (p q s : string) :
  String.prefix (p ++ q) s = true -> String.prefix p s = true.
Proof.
  revert s. induction p as [|a p IH]; intros s H.
  - apply prefix_nil.
  - destruct s as [|b s]; [discriminate|].
    cbn [append] in H. rewrite prefix_cons in *.
    apply andb_true_iff in H as [-> Hp]. simpl. eauto.
Qed.

Lemma length_app (s t : string) :
  String.length (s ++ t) = String.length s + String.length t.
Proof. induction s; simpl; congruence. Qed.

Lemma contains_cons (p : string) (c : ascii) (s : string) :
  Py.contains p (String c s) = String.prefix p (String c s) || Py.contains p s.
Proof. reflexivity. Qed.

End StringFacts.

(** * [str.replace] *)

Section Replace.

Variables old new : string.

Lemma replace_from_skip (x r : string) :
  Py.replace_from old new (String.length x) (x ++ r)
  = Py.replace_from old new 0 r.
Proof.
  induction x as [|c x IH]; simpl.
  - now destruct r.
  - exact IH.
Qed.

Lemma replace_from_miss (c : ascii) (r : string) :
  String.prefix old (String c r) = false ->
  Py.replace_from old new 0 (String c r)
  = String c (Py.replace_from old new 0 r).
Proof. intros H. cbn [Py.replace_from]. now rewrite H. Qed.

End Replace.

Lemma replace_from_hit (a : ascii) (old' new r : string) :
  Py.replace_from (String a old') new 0 (String a old' ++ r)
  = new ++ Py.replace_from (String a old') new 0 r.
Proof.
  change (String a old' ++ r) with (String a (old' ++ r)).
  cbn [Py.replace_from].
  change (String a (old' ++ r)) with (String a old' ++ r).
  rewrite prefix_app. f_equal.
  replace (String.length (String a old') - 1) with (String.length old')
    by (cbn [String.length]; lia).
  apply replace_from_skip.
Qed.

(** * The line-continuation normaliser *)

Lemma normalize_hit (r : string) :
  normalize_newlines (continuation ++ r) = String " " (normalize_newlines r).
Proof.
  unfold normalize_newlines, Py.replace, continuation.
  now rewrite replace_from_hit.
Qed.

Lemma normalize_miss (c : ascii) (r : string) :
  String.prefix continuation (String c r) = false ->
  normalize_newlines (String c r) = String c (normalize_newlines r).
Proof.
  intros H. unfold normalize_newlines, Py.replace, continuation in *.
  now apply replace_from_miss.
Qed.

(** Induction along the scan of [normalize_newlines]. *)
Lemma continuation_ind (P : string -> Prop) :
  P EmptyString ->
  (forall r, P r -> P (continuation ++ r)) ->
  (forall c r, String.prefix continuation (String c r) = false ->
               P r -> P (String c r)) ->
  forall s, P s.
Proof.
  intros Hnil Hhit Hmiss s.
  remember (String.length s) as n eqn:Hn.
  revert s Hn. induction n as [n IH] using lt_wf_ind. intros s Hn.
  destruct s as [|c r]; [exact Hnil|].
  destruct (String.prefix continuation (String c r)) eqn:Hp.
  - apply prefix_split in Hp as [r' Hr']. rewrite Hr'.
    apply Hhit. apply (IH (String.length r')); [|reflexivity].
    rewrite Hn, Hr', length_app. simpl. lia.
  - apply Hmiss; [exact Hp|].
    apply (IH (String.length r)); [|reflexivity].
    rewrite Hn. simpl. lia.
Qed.

Lemma normalize_head (s : string) : head (normalize_newlines s) = head s.
Proof.
  destruct s as [|c r]; [reflexivity|].
  destruct (String.prefix continuation (String c r)) eqn:Hp.
  - apply prefix_split in Hp as [r' Hr']. rewrite Hr', normalize_hit.
    reflexivity.
  - now rewrite normalize_miss.
Qed.

Lemma prefix_one (c : ascii) (s t : string) :
  head s = head t ->
  String.prefix (Py.chr c) s = String.prefix (Py.chr c) t.
Proof.
  destruct s as [|a s], t as [|b t]; simpl head; intros H;
    try discriminate; try reflexivity.
  injection H as ->. unfold Py.chr. now rewrite !prefix_cons, !prefix_nil.
Qed.

Lemma normalize_after_space (r : string) :
  String.prefix after_space (normalize_newlines r)
  = String.prefix after_space r.
Proof.
  destruct r as [|c r]; [reflexivity|].
  destruct (String.prefix continuation (String c r)) eqn:Hp.
  - apply prefix_split in Hp as [r' Hr']. rewrite Hr', normalize_hit.
    reflexivity.
  - rewrite normalize_miss by exact Hp. unfold after_space.
    rewrite !prefix_cons. f_equal.
    apply (prefix_one Py.newline). apply normalize_head.
Qed.

Lemma prefix_continuation (c : ascii) (s : string) :
  String.prefix continuation (String c s)
  = Ascii.eqb " " c && String.prefix after_space s.
Proof. unfold continuation. now rewrite prefix_cons. Qed.

Lemma prefix_stacked (r : string) :
  String.prefix stacked_continuation (continuation ++ r)
  = String.prefix after_space r.
Proof.
  unfold stacked_continuation, continuation. simpl append.
  rewrite !prefix_cons, !Ascii.eqb_refl. reflexivity.
Qed.

Lemma contains_stacked_hit (r : string) :
  Py.contains stacked_continuation (continuation ++ r)
  = String.prefix after_space r || Py.contains stacked_continuation r.
Proof.
  change (continuation ++ r) with (String " " (after_space ++ r)).
  rewrite contains_cons.
  change (String " " (after_space ++ r)) with (continuation ++ r).
  rewrite prefix_stacked. reflexivity.
Qed.

Lemma normalize_fixed (t : string) :
  Py.contains continuation t = false -> normalize_newlines t = t.
Proof.
  induction t as [|r IH|c r Hp IH] using continuation_ind; intros H.
  - reflexivity.
  - exfalso.
    assert (Py.contains continuation (continuation ++ r) = true) as E.
    { unfold continuation at 2. simpl append. rewrite contains_cons.
      change (String " " (String Py.backslash (String Py.newline r)))
        with (continuation ++ r).
      now rewrite prefix_app. }
    congruence.
  - rewrite contains_cons, Hp in H. simpl in H.
    rewrite normalize_miss by exact Hp. now rewrite IH.
Qed.

Lemma normalize_clean (s : string) :
  Py.contains stacked_continuation s = false ->
  Py.contains continuation (normalize_newlines s) = false.
Proof.
  induction s as [|r IH|c r Hp IH] using continuation_ind; intros H.
  - reflexivity.
  - rewrite contains_stacked_hit in H. apply orb_false_iff in H as [H1 H2].
    rewrite normalize_hit, contains_cons, prefix_continuation.
    rewrite normalize_after_space, H1, (IH H2). reflexivity.
  - rewrite contains_cons in H. apply orb_false_iff in H as [_ H2].
    rewrite normalize_miss by exact Hp.
    rewrite contains_cons, (IH H2), prefix_continuation, normalize_after_space.
    rewrite <- prefix_continuation, Hp. reflexivity.
Qed.

Lemma normalize_length (t : string) :
  String.length (normalize_newlines t) <= String.length t
  /\ (Py.contains continuation t = true ->
      String.length (normalize_newlines t) < String.length t).
Proof.
  induction t as [|r IH|c r Hp IH] using continuation_ind.
  - split; [reflexivity | discriminate].
  - rewrite normalize_hit, length_app. simpl. split; intros; lia.
  - rewrite normalize_miss by exact Hp. rewrite contains_cons, Hp.
    cbn [String.length orb]. split; [lia|]. intros H. apply IH in H. lia.
Qed.

Lemma normalize_dirty (s : string) :
  Py.contains stacked_continuation s = true ->
  Py.contains continuation (normalize_newlines s) = true.
Proof.
  induction s as [|r IH|c r Hp IH] using continuation_ind; intros H.
  - discriminate.
  - rewrite contains_stacked_hit in H.
    rewrite normalize_hit, contains_cons, prefix_continuation.
    rewrite normalize_after_space. simpl.
    apply orb_true_iff in H as [H|H]; [now rewrite H|].
    rewrite (IH H). apply orb_true_r.
  - rewrite contains_cons in H.
    rewrite normalize_miss by exact Hp. rewrite contains_cons.
    apply orb_true_iff in H as [H|H].
    + apply (prefix_of_app continuation) in H. congruence.
    + rewrite (IH H). apply orb_true_r.
Qed.

(** C4, amended.  Normalising twice is the same as normalising once
    exactly on the texts that have no continuation directly followed by
    a backslash and a newline: one pass of [replace] joins the space it
    writes to what follows, and does not look at it again. *)
Theorem normalize_newlines_idempotent_iff (s : string) :
  normalize_newlines (normalize_newlines s) = normalize_newlines s
  <-> Py.contains stacked_continuation s = false.
Proof.
  split.
  - intros H. destruct (Py.contains stacked_continuation s) eqn:E; [|reflexivity].
    apply normalize_dirty in E.
    apply (proj2 (normalize_length _)) in E. rewrite H in E. lia.
  - intros H. apply normalize_fixed, normalize_clean, H.
Qed.

(** C4, as it stands, fails: a continuation followed by a backslash and
    a newline becomes a continuation, which a second pass replaces. *)
Lemma normalize_newlines_not_idempotent :
  let s := continuation ++ after_space in
  normalize_newlines (normalize_newlines s) <> normalize_newlines s.
Proof. vm_compute. discriminate. Qed.

(** * The ordered mapping *)

Section OrderedDict.

Implicit Types (d : odict) (k key v value : string).

Lemma od_set_in key value d k v :
  In (k, v) (od_set key value d) -> (k = key /\ v = value) \/ In (k, v) d.
Proof.
  induction d as [|[k0 v0] d IH]; simpl.
  - intros [[= <- <-]|[]]. now left.
  - destruct (String.eqb_spec k0 key) as [->|Hne]; simpl.
    + intros [[= <- <-]|H]; auto.
    + intros [H|H]; auto. destruct (IH H); auto.
Qed.

Lemma od_get_set_same key value d : od_get key (od_set key value d) = Some value.
Proof.
  induction d as [|[k0 v0] d IH]; simpl.
  - now rewrite String.eqb_refl.
  - destruct (String.eqb_spec k0 key) as [->|Hne]; simpl.
    + now rewrite String.eqb_refl.
    + apply String.eqb_neq in Hne. now rewrite Hne.
Qed.

Lemma od_get_set_other key value d k :
  k <> key -> od_get k (od_set key value d) = od_get k d.
Proof.
  intros Hk. induction d as [|[k0 v0] d IH]; simpl.
  - apply not_eq_sym, String.eqb_neq in Hk. now rewrite Hk.
  - destruct (String.eqb_spec k0 key) as [->|Hne]; simpl.
    + apply not_eq_sym, String.eqb_neq in Hk. now rewrite Hk.
    + now rewrite IH.
Qed.

(** A key that is present keeps its position. *)
Lemma od_index_set_kept key value d k i :
  od_index k d = Some i -> od_index k (od_set key value d) = Some i.
Proof.
  revert i. induction d as [|[k0 v0] d IH]; simpl; intros i; [discriminate|].
  destruct (String.eqb_spec k0 k) as [->|Hk].
  - intros [= <-]. destruct (String.eqb k key); simpl;
      now rewrite String.eqb_refl.
  - apply String.eqb_neq in Hk.
    destruct (od_index k d) as [j|] eqn:Ej; [|discriminate]. simpl.
    intros [= <-].
    destruct (String.eqb k0 key); simpl; rewrite Hk.
    * now rewrite Ej.
    * now rewrite (IH j eq_refl).
Qed.

(** A new key goes to the end. *)
Lemma od_index_set_new key value d :
  od_index key d = None ->
  od_index key (od_set key value d) = Some (List.length d).
Proof.
  induction d as [|[k0 v0] d IH]; simpl.
  - now rewrite String.eqb_refl.
  - destruct (String.eqb k0 key) eqn:E; [discriminate|].
    destruct (od_index key d); [discriminate|]. intros _. simpl.
    now rewrite E, (IH eq_refl).
Qed.

Lemma od_index_get k d : od_index k d = None <-> od_get k d = None.
Proof.
  induction d as [|[k0 v0] d IH]; simpl; [tauto|].
  destruct (String.eqb k0 k); [split; discriminate|].
  destruct (od_index k d); simpl.
  - split; [discriminate|]. intros H. apply IH in H. discriminate.
  - split; [|reflexivity]. intros _. now apply IH.
Qed.

Lemma od_index_nth k d i :
  od_index k d = Some i -> exists v, nth_error d i = Some (k, v).
Proof.
  revert i. induction d as [|[k0 v0] d IH]; simpl; intros i; [discriminate|].
  destruct (String.eqb_spec k0 k) as [->|Hk].
  - intros [= <-]. now exists v0.
  - destruct (od_index k d) as [j|]; [|discriminate]. simpl. intros [= <-].
    apply (IH j eq_refl).
Qed.

End OrderedDict.

(** * The loop over the headers *)

Section HeaderLoop.

Lemma header_step_entry d s :
  header_step d (Argparse.Str s)
  = match header_entry s with
    | None => Raise ValueError
    | Some (k, v) => Ok (if excluded k then d else od_set k v d)
    end.
Proof.
  unfold header_step, header_entry.
  destruct (Py.split1 ":" s) as [|a [|b [|? ?]]]; try reflexivity.
  now destruct (excluded (clean_key a)).
Qed.

Lemma header_loop_app l1 l2 d :
  header_loop (l1 ++ l2) d = (d' <- header_loop l1 d ;; header_loop l2 d').
Proof.
  revert d. induction l1 as [|h l1 IH]; intros d; simpl; [reflexivity|].
  destruct (header_step d h); simpl; auto.
Qed.

Lemma header_step_ok d h d' :
  header_step d h = Ok d' ->
  exists s k v, h = Argparse.Str s /\ header_entry s = Some (k, v)
                /\ d' = if excluded k then d else od_set k v d.
Proof.
  destruct h as [s|l]; [|discriminate].
  rewrite header_step_entry.
  destruct (header_entry s) as [[k v]|] eqn:E; [|discriminate].
  intros [= <-]. exists s, k, v. repeat split. exact E.
Qed.

(** What the loop keeps true of every item of the mapping. *)
Lemma header_loop_invariant (P : string -> string -> Prop) l :
  (forall s k v, In (Argparse.Str s) l -> header_entry s = Some (k, v) ->
                 excluded k = false -> P k v) ->
  forall d d', (forall k v, In (k, v) d -> P k v) ->
               header_loop l d = Ok d' ->
               forall k v, In (k, v) d' -> P k v.
Proof.
  induction l as [|h l IH]; intros HP d d' Hd; simpl.
  - now intros [= <-].
  - destruct (header_step d h) as [d1|] eqn:E; [|discriminate]. simpl.
    apply header_step_ok in E as (s & k0 & v0 & -> & He & ->).
    apply IH.
    + intros s' k v Hin. apply HP. now right.
    + intros k v Hin. destruct (excluded k0) eqn:Ex; [auto|].
      apply od_set_in in Hin as [[-> ->]|Hin]; [|auto].
      apply (HP s); auto. now left.
Qed.

(** Positions never move. *)
Lemma header_loop_index l d d' k i :
  header_loop l d = Ok d' -> od_index k d = Some i -> od_index k d' = Some i.
Proof.
  revert d. induction l as [|h l IH]; intros d; simpl.
  - now intros [= <-].
  - destruct (header_step d h) as [d1|] eqn:E; [|discriminate]. simpl.
    apply header_step_ok in E as (s & k0 & v0 & -> & He & ->).
    intros Hl Hi. apply (IH _ Hl).
    destruct (excluded k0); [exact Hi|]. now apply od_index_set_kept.
Qed.

(** A name that no header of the list bears keeps its value. *)
Lemma header_loop_get l d d' k :
  header_loop l d = Ok d' ->
  (forall s e, In (Argparse.Str s) l -> header_entry s = Some e -> fst e <> k) ->
  od_get k d' = od_get k d.
Proof.
  revert d. induction l as [|h l IH]; intros d; simpl.
  - now intros [= <-].
  - destruct (header_step d h) as [d1|] eqn:E; [|discriminate]. simpl.
    apply header_step_ok in E as (s & k0 & v0 & -> & He & ->).
    intros Hl Hk. rewrite (IH _ Hl) by (intros s' e Hin; apply Hk; now right).
    destruct (excluded k0); [reflexivity|].
    apply od_get_set_other. apply not_eq_sym.
    apply (Hk s (k0, v0)); [now left | exact He].
Qed.

(** A retained header is in the mapping. *)
Lemma header_loop_present l d d' s k v :
  header_loop l d = Ok d' -> In (Argparse.Str s) l ->
  header_entry s = Some (k, v) -> excluded k = false ->
  exists i, od_index k d' = Some i.
Proof.
  revert d. induction l as [|h l IH]; intros d; simpl; [tauto|].
  destruct (header_step d h) as [d1|] eqn:E; [|discriminate]. simpl.
  intros Hl [->|Hin] He Hx.
  - rewrite header_step_entry, He, Hx in E. injection E as <-.
    destruct (od_index k d) as [i|] eqn:Ei.
    + exists i. apply (header_loop_index _ _ _ _ _ Hl).
      now apply od_index_set_kept.
    + exists (List.length d). apply (header_loop_index _ _ _ _ _ Hl).
      now apply od_index_set_new.
  - eapply IH; eauto.
Qed.

Lemma split1_without sep s :
  Py.contains sep s = false -> Py.split1 sep s = [s].
Proof.
  induction s as [|c s IH]; intros H.
  - destruct sep; [discriminate | reflexivity].
  - rewrite contains_cons in H. apply orb_false_iff in H as [Hp Hc].
    cbn [Py.split1].
    assert (Py.drop_prefix sep (String c s) = None) as ->.
    { clear -Hp. revert Hp. generalize (String c s) as t.
      induction sep as [|a sep IHs]; intros t.
      - now rewrite prefix_nil.
      - destruct t as [|b t]; [reflexivity|]. rewrite prefix_cons. simpl.
        destruct (Ascii.eqb a b); simpl; auto. }
    now rewrite (IH Hc).
Qed.

Lemma header_entry_without_colon s :
  Py.contains ":" s = false -> header_entry s = None.
Proof. intros H. unfold header_entry. now rewrite split1_without. Qed.

Lemma header_loop_without_colon lines bad d :
  In bad lines -> Py.contains ":" bad = false ->
  header_loop (map Argparse.Str lines) d = Raise ValueError.
Proof.
  intros Hin Hbad. revert d.
  induction lines as [|h lines IH]; intros d; [destruct Hin|].
  cbn [map header_loop]. rewrite header_step_entry.
  destruct (header_entry h) as [[k v]|] eqn:E; [|reflexivity]. cbn [bind].
  destruct Hin as [->|Hin]; [|now apply IH].
  rewrite header_entry_without_colon in E by exact Hbad. discriminate.
Qed.

End HeaderLoop.

Lemma parse_context_ok c ctx :
  parse_context c = Ok ctx ->
  exists ns u, curl_args c = Ok ns /\ Argparse.url ns = Argparse.Str u
               /\ header_loop (Argparse.header ns) [] = Ok (headers ctx)
               /\ url ctx = clean_url u.
Proof.
  unfold parse_context.
  destruct (curl_args c) as [ns|] eqn:E; [|discriminate]. simpl.
  unfold context_of. destruct (Argparse.url ns) as [u|] eqn:Eu; [|discriminate].
  destruct (header_loop (Argparse.header ns) []) as [d|] eqn:El; [|discriminate].
  simpl. intros [= <-]. now exists ns, u.
Qed.

(** * The generator in closed form *)

Section Generator.

Lemma append_nil_r (s : string) : s ++ EmptyString = s.
Proof. induction s; simpl; congruence. Qed.

Lemma append_assoc (s t u : string) : (s ++ t) ++ u = s ++ t ++ u.
Proof. induction s; simpl; congruence. Qed.

Lemma join_app (sep : string) (l l' : list string) :
  l <> [] -> l' <> [] ->
  Py.join sep (l ++ l')%list = Py.join sep l ++ sep ++ Py.join sep l'.
Proof.
  unfold Py.join. intros Hl Hl'.
  induction l as [|x l IH]; [congruence|].
  destruct l as [|y l].
  - destruct l' as [|z l']; [congruence | reflexivity].
  - change (String.concat sep ((x :: y :: l) ++ l')%list)
      with (x ++ sep ++ String.concat sep ((y :: l) ++ l')%list).
    rewrite IH by discriminate.
    change (String.concat sep (x :: y :: l)) with (x ++ sep ++ String.concat sep (y :: l)).
    now rewrite !append_assoc.
Qed.

Lemma streamlink_tokens_flat (pc : ParsedContext) :
  streamlink_tokens pc
  = (["streamlink"; url pc; "best"] ++ flat_map http_header (headers pc))%list.
Proof.
  unfold streamlink_tokens.
  generalize ["streamlink"; url pc; "best"] as init.
  induction (headers pc) as [|item d IH]; intros init; simpl.
  - now rewrite app_nil_r.
  - rewrite IH. now rewrite <- app_assoc.
Qed.

Lemma join_headers (init : list string) (d : odict) :
  init <> [] ->
  Py.join " " (init ++ flat_map http_header d)%list
  = Py.join " " init ++ String.concat EmptyString (map header_text d).
Proof.
  revert init. induction d as [|item d IH]; intros init Hinit.
  - simpl. now rewrite app_nil_r, append_nil_r.
  - cbn [flat_map map]. rewrite app_assoc, IH.
    + rewrite join_app by (exact Hinit || discriminate).
      assert (String.concat EmptyString (header_text item :: map header_text d)
              = header_text item ++ String.concat EmptyString (map header_text d)) as ->.
      { destruct (map header_text d); simpl; [now rewrite append_nil_r | reflexivity]. }
      rewrite !append_assoc. reflexivity.
    + destruct init; [congruence | discriminate].
Qed.

Lemma generate_closed_form (pc : ParsedContext) :
  generate_streamlink_command pc
  = command_head pc ++ String.concat EmptyString (map header_text (headers pc)).
Proof.
  unfold generate_streamlink_command. rewrite streamlink_tokens_flat.
  rewrite join_headers by discriminate.
  unfold command_head, Py.join. simpl. now rewrite !append_assoc.
Qed.

End Generator.

(** * Trimming *)

Section Strip.

Lemma rstrip_end (s : string) (c : ascii) :
  Py.isspace c = false -> Py.rstrip (s ++ Py.chr c) = s ++ Py.chr c.
Proof.
  intros Hc. induction s as [|a s IH]; simpl.
  - now rewrite Hc.
  - rewrite IH. now destruct s.
Qed.

Lemma strip_quoted (t : string) :
  Py.strip (quote ++ t ++ quote) = quote ++ t ++ quote.
Proof.
  unfold Py.strip. change (quote ++ t ++ quote) with (String Py.squote (t ++ quote)).
  cbn [Py.lstrip].
  replace (Py.isspace Py.squote) with false by reflexivity.
  change (String Py.squote (t ++ quote)) with ((String Py.squote t) ++ Py.chr Py.squote).
  now apply rstrip_end.
Qed.

(** The stored value of a header, from its trimmed value. *)
Lemma stored_value (header_value : string) :
  let t := trimmed header_value in
  Py.strip (clean_value header_value)
  = if Py.contains " " t || Py.contains (Py.chr Py.dquote) t
    then quote ++ t ++ quote else t.
Proof.
  unfold clean_value, trimmed. cbn [existsb]. rewrite orb_false_r.
  destruct (_ || _); [apply strip_quoted | reflexivity].
Qed.

End Strip.

(** * The scenarios and the headers *)

(** C1.  Scenario 1: the curl command with an [Accept] and a [User-Agent]
    header gives the streamlink command with the [Accept] header alone. *)
Theorem scenario_1 :
  rmap generate_streamlink_command
       (parse_context
          "curl 'http://example.com' -H 'Accept: text/html' -H 'User-Agent: x'")
  = Ok "streamlink http://example.com best --http-header Accept=text/html".
Proof. vm_compute. reflexivity. Qed.

(** C2.  Whatever the curl command, no header named [sec-ch-ua] or
    [user-agent] in any letter case is in the parsed context; a header
    string with such a name leaves the mapping as it is, whatever its
    value; and the generated command holds the headers of the mapping
    and no others. *)
Theorem excluded_headers_absent (curl_command : string) (ctx : ParsedContext) :
  parse_context curl_command = Ok ctx ->
  (forall k v, In (k, v) (headers ctx) ->
               Py.lower k <> "sec-ch-ua" /\ Py.lower k <> "user-agent")
  /\ (forall d s k v, header_entry s = Some (k, v) ->
                      Py.lower k = "sec-ch-ua" \/ Py.lower k = "user-agent" ->
                      header_step d (Argparse.Str s) = Ok d)
  /\ generate_streamlink_command ctx
     = command_head ctx ++ String.concat EmptyString (map header_text (headers ctx)).
Proof.
  intros H. apply parse_context_ok in H as (ns & u & _ & _ & Hl & _).
  split; [|split].
  - eapply (header_loop_invariant
              (fun k _ => Py.lower k <> "sec-ch-ua" /\ Py.lower k <> "user-agent"));
      [ | | exact Hl]; [|intros k v []].
    intros s k v _ _ Hx. unfold excluded, exclude_headers, list_mem in Hx. cbn [existsb] in Hx.
    rewrite orb_false_r in Hx. apply orb_false_iff in Hx as [H1 H2].
    split; apply String.eqb_neq; assumption.
  - intros d s k v He Hk. rewrite header_step_entry, He.
    assert (excluded k = true) as ->; [|reflexivity].
    unfold excluded, exclude_headers, list_mem. cbn [existsb].
    destruct Hk as [-> | ->]; reflexivity.
  - apply generate_closed_form.
Qed.

(** An instance of C2, with the two excluded names in two letter cases. *)
Lemma excluded_headers_absent_witness :
  let ctx := mkParsedContext "u" [("A", "b")] in
  parse_context excluded_example = Ok ctx
  /\ (forall k v, In (k, v) (headers ctx) ->
                  Py.lower k <> "sec-ch-ua" /\ Py.lower k <> "user-agent").
Proof.
  split; [vm_compute; reflexivity|].
  apply (excluded_headers_absent excluded_example). vm_compute. reflexivity.
Defined.

Section Emitted.

Lemma concat_cons (x : string) (l : list string) :
  String.concat EmptyString (x :: l) = x ++ String.concat EmptyString l.
Proof. destruct l; simpl; [now rewrite append_nil_r | reflexivity]. Qed.

Lemma concat_app (l l' : list string) :
  String.concat EmptyString (l ++ l')%list
  = String.concat EmptyString l ++ String.concat EmptyString l'.
Proof.
  induction l as [|x l IH]; [reflexivity|].
  cbn [List.app]. now rewrite !concat_cons, IH, append_assoc.
Qed.

(** Every item of the mapping is written in the command. *)
Lemma header_emitted (ctx : ParsedContext) (item : string * string) :
  In item (headers ctx) ->
  exists before after,
    generate_streamlink_command ctx = before ++ header_text item ++ after.
Proof.
  intros Hin. apply in_split in Hin as (d1 & d2 & Hd).
  rewrite generate_closed_form, Hd, map_app, concat_app. cbn [map].
  rewrite concat_cons.
  exists (command_head ctx ++ String.concat EmptyString (map header_text d1)).
  exists (String.concat EmptyString (map header_text d2)).
  now rewrite !append_assoc.
Qed.

End Emitted.

(** C3.  Every header of the parsed context comes from a header string
    of the command; when its trimmed value has a space the stored value
    is that value between single quotes, when it has neither a space nor
    a double quote the stored value is the trimmed value itself; the
    generated command writes the stored value after the name.  Scenario 2
    is an instance. *)
Theorem header_value_quoting :
  (forall (curl_command : string) (ctx : ParsedContext) (k v : string),
      parse_context curl_command = Ok ctx -> In (k, v) (headers ctx) ->
      (exists ns s header_key header_value,
          curl_args curl_command = Ok ns
          /\ In (Argparse.Str s) (Argparse.header ns)
          /\ Py.split1 ":" s = [header_key; header_value]
          /\ k = clean_key header_key
          /\ (Py.contains " " (trimmed header_value) = true ->
              v = quote ++ trimmed header_value ++ quote)
          /\ (Py.contains " " (trimmed header_value) = false ->
              Py.contains (Py.chr Py.dquote) (trimmed header_value) = false ->
              v = trimmed header_value))
      /\ exists before after,
          generate_streamlink_command ctx
          = before ++ " --http-header " ++ k ++ "=" ++ v ++ after)
  /\ rmap generate_streamlink_command (parse_context scenario_2_command)
     = Ok "streamlink http://example.com best --http-header X-Test='a b'".
Proof.
  split; [|vm_compute; reflexivity].
  intros c ctx k v H Hin. split.
  - apply parse_context_ok in H as (ns & u & Hns & _ & Hl & _).
    exists ns.
    enough (exists s header_key header_value,
               In (Argparse.Str s) (Argparse.header ns)
               /\ Py.split1 ":" s = [header_key; header_value]
               /\ k = clean_key header_key
               /\ (Py.contains " " (trimmed header_value) = true ->
                   v = quote ++ trimmed header_value ++ quote)
               /\ (Py.contains " " (trimmed header_value) = false ->
                   Py.contains (Py.chr Py.dquote) (trimmed header_value) = false ->
                   v = trimmed header_value))
      as (s & hk & hv & R) by (exists s, hk, hv; split; [exact Hns | exact R]).
    revert k v Hin.
    eapply header_loop_invariant; [ | | exact Hl]; [|intros k v []].
    intros s k v Hs He _. unfold header_entry in He.
    destruct (Py.split1 ":" s) as [|hk [|hv [|? ?]]] eqn:Es; try discriminate.
    injection He as <- <-. exists s, hk, hv.
    rewrite stored_value. repeat split; auto.
    + intros ->. reflexivity.
    + intros -> ->. reflexivity.
  - destruct (header_emitted ctx (k, v) Hin) as (b & a & E).
    exists b, a. rewrite E. unfold header_text. cbn [fst snd].
    now rewrite !append_assoc.
Qed.

(** An instance of C3: the header of scenario 2. *)
Lemma header_value_quoting_witness :
  let ctx := mkParsedContext "http://example.com" [("X-Test", "'a b'")] in
  parse_context scenario_2_command = Ok ctx
  /\ In ("X-Test", "'a b'") (headers ctx)
  /\ exists before after,
      generate_streamlink_command ctx
      = before ++ " --http-header " ++ "X-Test" ++ "=" ++ "'a b'" ++ after.
Proof.
  split; [vm_compute; reflexivity|]. split; [now left|].
  apply (proj1 header_value_quoting scenario_2_command _ "X-Test" "'a b'").
  - vm_compute. reflexivity.
  - now left.
Defined.

(** * The front end *)

Section FrontEnd.

Lemma lines_of_join (current s : string) :
  Py.join EmptyString (lines_of current s) = current ++ s.
Proof.
  unfold Py.join. revert current.
  induction s as [|c s IH]; intros current; cbn [lines_of].
  - destruct current; [reflexivity|]. simpl. now rewrite append_nil_r.
  - destruct (Ascii.eqb_spec c Py.newline) as [->|Hc].
    + rewrite concat_cons, IH. unfold Py.chr. now rewrite append_assoc.
    + rewrite IH. unfold Py.chr. now rewrite append_assoc.
Qed.

(** A text without a newline, then a newline: the first line. *)
Lemma lines_of_first (first current rest : string) :
  Py.contains (Py.chr Py.newline) first = false ->
  lines_of current (first ++ String Py.newline rest)
  = (current ++ line first) :: lines_of EmptyString rest.
Proof.
  revert current. induction first as [|c first IH]; intros current H.
  - reflexivity.
  - rewrite contains_cons in H. apply orb_false_iff in H as [Hc Hf].
    unfold Py.chr in Hc. rewrite prefix_cons, prefix_nil, andb_true_r in Hc.
    cbn [append lines_of]. rewrite Ascii.eqb_sym, Hc, (IH _ Hf).
    unfold line, Py.chr. cbn [append]. now rewrite !append_assoc.
Qed.

(** In mode 1 the curl command is the text after the first line. *)
Lemma run_mode_1 (curl_command : string) :
  run (line "1" ++ curl_command)
  = convert curl_command (mkWorld EmptyString [type_prompt; curl_notice] None).
Proof.
  unfold run, main, iobind, input, write, print, readlines. simpl.
  now rewrite lines_of_join.
Qed.

Lemma convert_raise (curl_command : string) (e : exn) (w : world) :
  parse_context curl_command = Raise e -> e <> SystemExit 0 ->
  convert curl_command w = (Raise e, w).
Proof.
  intros H He. unfold convert, iobind, call_parse_context, lift. rewrite H.
  destruct e as [| | |[|code]]; try reflexivity. now destruct He.
Qed.

End FrontEnd.

(** C6, as it stands, fails: a header without a colon among the tokens
    does not always end in [ValueError].  With an option that the parser
    does not know in the command, the parser exits with status 2 and the
    headers are never looked at; a header that is read as an empty list
    raises [AttributeError] before the header without a colon is
    reached; and with [-h] the parser prints its help and exits with
    status 0. *)
Lemma header_without_colon_other_errors :
  Shlex.split (normalize_newlines "curl 'u' -H 'BadHeaderNoColon' -X POST")
  = Ok ["curl"; "'u'"; "-H"; "'BadHeaderNoColon'"; "-X"; "POST"]
  /\ Py.contains ":" "'BadHeaderNoColon'" = false
  /\ parse_context "curl 'u' -H 'BadHeaderNoColon' -X POST"
     = Raise (SystemExit 2)
  /\ parse_context "curl 'u' -H 'BadHeaderNoColon' -X POST" <> Raise ValueError
  /\ Shlex.split (normalize_newlines "curl 'u' --header=-- -H 'BadHeaderNoColon'")
     = Ok ["curl"; "'u'"; "--header=--"; "-H"; "'BadHeaderNoColon'"]
  /\ parse_context "curl 'u' --header=-- -H 'BadHeaderNoColon'"
     = Raise AttributeError
  /\ parse_context "curl 'u' -H 'BadHeaderNoColon' -h" = Raise (SystemExit 0)
  /\ run (line "1" ++ "curl 'u' -H 'BadHeaderNoColon' -h")
     = (Raise (SystemExit 0),
        mkWorld EmptyString [type_prompt; curl_notice; Argparse.format_help]
                None).
Proof. repeat split; vm_compute; (reflexivity || discriminate). Qed.

(** C6, amended.  When the arguments of a curl command parse to a URL
    and header strings, and one of the header strings has no colon,
    [parse_context] raises [ValueError]; the conversion then prints
    nothing and leaves the clipboard alone, and in mode 1 the process
    ends on that error with nothing but the prompts written. *)
Theorem header_without_colon_is_fatal
  (curl_command : string) (ns : Argparse.Namespace) (u : string)
  (header_strings : list string) (bad : string) :
  curl_args curl_command = Ok ns ->
  Argparse.url ns = Argparse.Str u ->
  Argparse.header ns = map Argparse.Str header_strings ->
  In bad header_strings ->
  Py.contains ":" bad = false ->
  parse_context curl_command = Raise ValueError
  /\ (forall w, convert curl_command w = (Raise ValueError, w))
  /\ run (line "1" ++ curl_command)
     = (Raise ValueError, mkWorld EmptyString [type_prompt; curl_notice] None)
  /\ exit_status (fst (run (line "1" ++ curl_command))) <> 0.
Proof.
  intros Hns Hu Hh Hin Hbad.
  assert (parse_context curl_command = Raise ValueError) as E.
  { unfold parse_context. rewrite Hns. cbn [bind]. unfold context_of.
    rewrite Hu, Hh, (header_loop_without_colon _ bad) by assumption.
    reflexivity. }
  assert (forall w, convert curl_command w = (Raise ValueError, w)) as Ec
      by (intros w; now apply convert_raise).
  split; [exact E|]. split; [exact Ec|].
  rewrite run_mode_1, Ec. split; [reflexivity|].
  discriminate.
Qed.

(** An instance of C6, amended: scenario 4. *)
Lemma header_without_colon_is_fatal_witness :
  parse_context scenario_4_command = Raise ValueError
  /\ run (line "1" ++ scenario_4_command)
     = (Raise ValueError, mkWorld EmptyString [type_prompt; curl_notice] None).
Proof.
  pose proof (header_without_colon_is_fatal
                scenario_4_command
                (Argparse.mkNamespace (Argparse.Str "curl")
                   (Argparse.Str "'http://e.com'")
                   [Argparse.Str "'BadHeaderNoColon'"] false)
                "'http://e.com'" ["'BadHeaderNoColon'"] "'BadHeaderNoColon'"
                eq_refl eq_refl eq_refl (or_introl eq_refl) eq_refl)
    as (H1 & _ & H2 & _).
  exact (conj H1 H2).
Defined.

(** C9.  When the answer to the first prompt is neither 0 nor 1, [main]
    writes the prompt and the line [not proper input], reads nothing
    more, leaves the clipboard alone and returns: the exit status is 0. *)
Theorem improper_input_type (text answer rest : string) :
  read_input text = Some (answer, rest) ->
  answer <> "0" -> answer <> "1" ->
  run text = (Ok tt, mkWorld rest [type_prompt; line "not proper input"] None)
  /\ exit_status (fst (run text)) = 0.
Proof.
  intros Hr H0 H1.
  assert (run text
          = (Ok tt, mkWorld rest [type_prompt; line "not proper input"] None)) as E.
  { unfold run, main, iobind, input, write. cbn -[read_input String.eqb line].
    rewrite Hr. cbn -[String.eqb line].
    apply String.eqb_neq in H0, H1. rewrite H0, H1. reflexivity. }
  rewrite E. split; reflexivity.
Qed.

(** An instance of C9: the answer 2. *)
Lemma improper_input_type_witness :
  run (line "2" ++ line "curl 'http://e.com'")
  = (Ok tt, mkWorld (line "curl 'http://e.com'")
                    [type_prompt; line "not proper input"] None)
  /\ exit_status (fst (run (line "2" ++ line "curl 'http://e.com'"))) = 0.
Proof.
  apply (improper_input_type _ "2" (line "curl 'http://e.com'")).
  - reflexivity.
  - discriminate.
  - discriminate.
Defined.

(** C8.  When a retained name is borne by two header strings of the
    command, the second being the last to bear it and the first the
    first, the mapping gives the name the value of the second, at the
    position the name took when the first was inserted: the number of
    items the mapping had then. *)
Theorem repeated_header_replaced_in_place
  (curl_command : string) (ns : Argparse.Namespace) (ctx : ParsedContext)
  (pre mid post : list Argparse.value) (first second name v1 v2 : string) :
  curl_args curl_command = Ok ns ->
  parse_context curl_command = Ok ctx ->
  Argparse.header ns
  = (pre ++ Argparse.Str first :: mid ++ Argparse.Str second :: post)%list ->
  header_entry first = Some (name, v1) ->
  header_entry second = Some (name, v2) ->
  excluded name = false ->
  (forall s e, In (Argparse.Str s) pre -> header_entry s = Some e -> fst e <> name) ->
  (forall s e, In (Argparse.Str s) post -> header_entry s = Some e -> fst e <> name) ->
  od_get name (headers ctx) = Some v2
  /\ exists before,
      header_loop pre [] = Ok before
      /\ od_index name (headers ctx) = Some (List.length before).
Proof.
  intros Hns Hctx Hh E1 E2 Hx Hpre Hpost.
  apply parse_context_ok in Hctx as (ns' & u & Hns' & _ & Hl & _).
  assert (ns' = ns) as -> by congruence.
  rewrite Hh, header_loop_app in Hl.
  destruct (header_loop pre []) as [d0|] eqn:L0; [|discriminate].
  cbn [bind header_loop] in Hl.
  rewrite header_step_entry, E1, Hx in Hl. cbn [bind] in Hl.
  rewrite header_loop_app in Hl.
  destruct (header_loop mid (od_set name v1 d0)) as [d2|] eqn:L2; [|discriminate].
  cbn [bind header_loop] in Hl.
  rewrite header_step_entry, E2, Hx in Hl. cbn [bind] in Hl.
  split.
  - rewrite (header_loop_get _ _ _ _ Hl Hpost). apply od_get_set_same.
  - exists d0. split; [reflexivity|].
    apply (header_loop_index _ _ _ _ _ Hl), od_index_set_kept.
    apply (header_loop_index _ _ _ _ _ L2), od_index_set_new.
    apply od_index_get. now rewrite (header_loop_get _ _ _ _ L0 Hpre).
Qed.

(** An instance of C8: [Accept] twice, with [X-Test] in between. *)
Lemma repeated_header_replaced_in_place_witness :
  exists ctx,
    parse_context repeated_command = Ok ctx
    /\ headers ctx = [("Accept", "c"); ("X-Test", "b")]
    /\ od_get "Accept" (headers ctx) = Some "c"
    /\ exists before,
        header_loop [] [] = Ok before
        /\ od_index "Accept" (headers ctx) = Some (List.length before).
Proof.
  exists (mkParsedContext "http://e.com" [("Accept", "c"); ("X-Test", "b")]).
  split; [vm_compute; reflexivity|]. split; [reflexivity|].
  apply (repeated_header_replaced_in_place
           repeated_command
           (Argparse.mkNamespace (Argparse.Str "curl")
              (Argparse.Str "'http://e.com'")
              [Argparse.Str "'Accept: a'"; Argparse.Str "'X-Test: b'";
               Argparse.Str "'Accept: c'"] false)
           _ [] [Argparse.Str "'X-Test: b'"] [] "'Accept: a'" "'Accept: c'"
           "Accept" "a" "c").
  - vm_compute. reflexivity.
  - vm_compute. reflexivity.
  - reflexivity.
  - vm_compute. reflexivity.
  - vm_compute. reflexivity.
  - vm_compute. reflexivity.
  - intros s e [].
  - intros s e [].
Defined.

(** C10.  Names are compared as they are spelled when they are stored:
    two header strings whose retained names differ, though they are
    equal once lowercased, give two items of the mapping at different
    positions, and the generated command writes every item. *)
Theorem header_names_case_sensitive
  (curl_command : string) (ns : Argparse.Namespace) (ctx : ParsedContext)
  (s1 s2 k1 k2 v1 v2 : string) :
  curl_args curl_command = Ok ns ->
  parse_context curl_command = Ok ctx ->
  In (Argparse.Str s1) (Argparse.header ns) ->
  In (Argparse.Str s2) (Argparse.header ns) ->
  header_entry s1 = Some (k1, v1) ->
  header_entry s2 = Some (k2, v2) ->
  k1 <> k2 ->
  Py.lower k1 = Py.lower k2 ->
  excluded k1 = false ->
  (exists i j w1 w2,
      i <> j
      /\ nth_error (headers ctx) i = Some (k1, w1)
      /\ nth_error (headers ctx) j = Some (k2, w2))
  /\ generate_streamlink_command ctx
     = command_head ctx ++ String.concat EmptyString (map header_text (headers ctx)).
Proof.
  intros Hns Hctx H1 H2 E1 E2 Hne Hlow Hx.
  split; [|apply generate_closed_form].
  apply parse_context_ok in Hctx as (ns' & u & Hns' & _ & Hl & _).
  assert (ns' = ns) as -> by congruence.
  assert (excluded k2 = false) as Hx2 by (unfold excluded in *; now rewrite <- Hlow).
  destruct (header_loop_present _ _ _ _ _ _ Hl H1 E1 Hx) as [i Hi].
  destruct (header_loop_present _ _ _ _ _ _ Hl H2 E2 Hx2) as [j Hj].
  destruct (od_index_nth _ _ _ Hi) as [w1 N1].
  destruct (od_index_nth _ _ _ Hj) as [w2 N2].
  exists i, j, w1, w2. repeat split; auto.
  intros ->. apply Hne. congruence.
Qed.

(** An instance of C10: [Accept] and [accept]. *)
Lemma header_names_case_sensitive_witness :
  let ctx := mkParsedContext "http://e.com" [("Accept", "a"); ("accept", "b")] in
  parse_context case_command = Ok ctx
  /\ generate_streamlink_command ctx
     = "streamlink http://e.com best --http-header Accept=a --http-header accept=b"
  /\ exists i j w1 w2,
      i <> j
      /\ nth_error (headers ctx) i = Some ("Accept", w1)
      /\ nth_error (headers ctx) j = Some ("accept", w2).
Proof.
  split; [vm_compute; reflexivity|]. split; [vm_compute; reflexivity|].
  apply (header_names_case_sensitive
           case_command
           (Argparse.mkNamespace (Argparse.Str "curl")
              (Argparse.Str "'http://e.com'")
              [Argparse.Str "'Accept: a'"; Argparse.Str "'accept: b'"] false)
           _ "'Accept: a'" "'accept: b'" "Accept" "accept" "a" "b").
  - vm_compute. reflexivity.
  - vm_compute. reflexivity.
  - now left.
  - right. now left.
  - vm_compute. reflexivity.
  - vm_compute. reflexivity.
  - discriminate.
  - vm_compute. reflexivity.
  - vm_compute. reflexivity.
Defined.

(** * Mode 0 *)

Section Mode0.

Lemma read_input_line (answer rest : string) :
  Py.contains (Py.chr Py.newline) answer = false ->
  read_input (line answer ++ rest) = Some (answer, rest).
Proof.
  intros H. unfold read_input.
  assert (readline (line answer ++ rest) = (line answer, rest)) as ->.
  { induction answer as [|c answer IH]; [reflexivity|].
    rewrite contains_cons in H. apply orb_false_iff in H as [Hc Hf].
    unfold Py.chr in Hc. rewrite prefix_cons, prefix_nil, andb_true_r in Hc.
    unfold line in *. cbn [append readline].
    rewrite Ascii.eqb_sym, Hc, (IH Hf). reflexivity. }
  assert (forall a, Py.endswith (Py.chr Py.newline) (line a) = true) as Hend.
  { intros a. induction a as [|c a IH]; [reflexivity|].
    unfold line in *. cbn [append Py.endswith]. rewrite IH. apply orb_true_r. }
  assert (forall a, Py.drop_last (line a) = a) as Hdrop.
  { intros a. induction a as [|c a IH]; [reflexivity|].
    unfold line in *. cbn [append Py.drop_last]. rewrite IH.
    now destruct a. }
  destruct (line answer) as [|c l] eqn:El.
  - destruct answer; discriminate.
  - rewrite <- El, Hend, Hdrop. reflexivity.
Qed.

(** In mode 0 the first line after the URL is not used. *)
Lemma run_mode_0 (u first rest : string) :
  Py.contains (Py.chr Py.newline) u = false ->
  Py.contains (Py.chr Py.newline) first = false ->
  run (line "0" ++ line u ++ line first ++ rest)
  = convert
      (Py.join EmptyString (header_commands u (lines_of EmptyString rest)))
      (mkWorld EmptyString [type_prompt; url_prompt; headers_notice] None).
Proof.
  intros Hu Hf.
  unfold run, main, iobind, input, write, print, readlines.
  cbn -[read_input lines_of line convert header_commands Py.join String.eqb].
  rewrite read_input_line by reflexivity.
  cbn -[read_input lines_of line convert header_commands Py.join].
  rewrite read_input_line by exact Hu.
  cbn -[read_input lines_of line convert header_commands Py.join].
  unfold line at 1. rewrite append_assoc.
  change (Py.chr Py.newline ++ rest) with (String Py.newline rest).
  rewrite lines_of_first by exact Hf.
  reflexivity.
Qed.

End Mode0.

(** C5, as it stands, fails: the header line that comes right after the
    URL is dropped, and the command has no header. *)
Lemma scenario_3_first_line_dropped :
  run scenario_3_text
  = (Ok tt, mkWorld EmptyString
                    [type_prompt; url_prompt; headers_notice;
                     line "streamlink http://e.com best"]
                    (Some "streamlink http://e.com best"))
  /\ clipboard (snd (run scenario_3_text)) <> Some scenario_3_output.
Proof. split; [vm_compute; reflexivity | vm_compute; discriminate]. Qed.

(** C5, amended.  In mode 0, with the URL [http://e.com], then any one
    line, which is dropped, then the header line [Accept: */*] and the
    end of input, the curl command is built without a space before
    [-H], its tokens are those of the command with the space, and [main]
    prints the streamlink command with the [Accept] header and copies it
    to the clipboard. *)
Theorem scenario_3_after_first_line (first : string) :
  Py.contains (Py.chr Py.newline) first = false ->
  run (line "0" ++ line "http://e.com" ++ line first ++ line "Accept: */*")
  = (Ok tt, mkWorld EmptyString
                    [type_prompt; url_prompt; headers_notice;
                     line scenario_3_output]
                    (Some scenario_3_output))
  /\ Py.join EmptyString (header_commands "http://e.com" [line "Accept: */*"])
     = "curl 'http://e.com'-H 'Accept: */*'"
  /\ Shlex.split "curl 'http://e.com'-H 'Accept: */*'"
     = Shlex.split "curl 'http://e.com' -H 'Accept: */*'".
Proof.
  intros Hf. split; [|split; vm_compute; reflexivity].
  rewrite run_mode_0 by (reflexivity || exact Hf).
  vm_compute. reflexivity.
Qed.

(** An instance of C5 as amended: a request line comes first. *)
Lemma scenario_3_after_first_line_witness :
  run (line "0" ++ line "http://e.com" ++ line "GET / HTTP/1.1"
         ++ line "Accept: */*")
  = (Ok tt, mkWorld EmptyString
                    [type_prompt; url_prompt; headers_notice;
                     line scenario_3_output]
                    (Some scenario_3_output)).
Proof.
  apply (scenario_3_after_first_line "GET / HTTP/1.1"). reflexivity.
Defined.

(** * The flag [--compressed] *)

Section Compressed.

Import Argparse.

Ltac same_view H :=
  match type of H with
  | view ?st = view ?st' =>
      destruct st as [? ? ? ?], st' as [? ? ? ?];
      unfold view in H; cbn [positionals st_header extras] in H;
      injection H as -> -> ->
  end.

Lemma take_argument_view s st st' :
  view st = view st' -> view (take_argument s st) = view (take_argument s st').
Proof.
  intros H. same_view H. unfold take_argument. cbn [positionals].
  now destruct (_ <? _)%nat.
Qed.

Lemma add_extras_view l st st' :
  view st = view st' -> view (add_extras l st) = view (add_extras l st').
Proof. intros H. same_view H. reflexivity. Qed.

Lemma take_positional_view l st st' :
  view st = view st' -> view (take_positional l st) = view (take_positional l st').
Proof. intros H. same_view H. reflexivity. Qed.

Lemma take_positionals_view counts :
  forall l st st',
    view st = view st' ->
    view (fst (take_positionals counts l st))
    = view (fst (take_positionals counts l st'))
    /\ snd (take_positionals counts l st) = snd (take_positionals counts l st').
Proof.
  induction counts as [|n counts IH]; intros l st st' H; cbn [take_positionals].
  - now split.
  - apply IH. now apply take_positional_view.
Qed.

Lemma consume_tail_view its after st st' :
  view st = view st' ->
  view (consume_tail its after st) = view (consume_tail its after st').
Proof.
  intros H. unfold consume_tail.
  assert (positionals st = positionals st') as <-.
  { unfold view in H. congruence. }
  set (counts := match_arguments_partial _ _).
  set (strs := (_ ++ _)%list).
  destruct (take_positionals_view counts strs st st' H) as [H1 H2].
  destruct (take_positionals counts strs st) as [a b],
           (take_positionals counts strs st') as [a' b'].
  cbn [fst snd] in *. subst b'. now apply add_extras_view.
Qed.

Lemma agree_ok st st' : view st = view st' -> agree (Ok st) (Ok st').
Proof. intros H. unfold agree, rmap. cbn [bind]. now rewrite H. Qed.

Lemma agree_refl r : agree r r.
Proof. reflexivity. Qed.

Lemma agree_bind r r' (k k' : pstate -> result pstate) :
  agree r r' ->
  (forall st st', view st = view st' -> agree (k st) (k' st')) ->
  agree (bind r k) (bind r' k').
Proof.
  unfold agree, rmap. intros H Hk.
  destruct r as [st|e], r' as [st'|e']; cbn [bind] in *; try discriminate.
  - apply Hk. congruence.
  - exact H.
Qed.

Lemma take_action_view a l st st' :
  view st = view st' -> agree (take_action a l st) (take_action a l st').
Proof.
  intros H. same_view H. destruct a; reflexivity.
Qed.

Lemma take_flags_view flags :
  forall st st', view st = view st' ->
                 agree (take_flags flags st) (take_flags flags st').
Proof.
  induction flags as [|a flags IH]; intros st st' H; cbn [take_flags].
  - now apply agree_ok.
  - apply agree_bind; [now apply take_action_view | exact IH].
Qed.

(** The parser does not read [compressed]. *)
Lemma consume_view n :
  forall its, List.length its <= n ->
  forall after st st',
    view st = view st' -> agree (consume its after st) (consume its after st').
Proof.
  induction n as [|n IH]; intros its Hn after st st' H.
  - destruct its; [|simpl in Hn; lia].
    apply agree_ok. now apply consume_tail_view.
  - destruct its as [|it rest].
    { apply agree_ok. now apply consume_tail_view. }
    cbn [List.length] in Hn. cbn [consume].
    destruct (negb (existsb is_option (it :: rest))).
    { apply agree_ok. now apply consume_tail_view. }
    destruct it as [s|s [a|] os ea].
    + apply IH; [lia | now apply take_argument_view].
    + destruct (resolve a os ea) as [[[flags last] src]|e]; cbn [bind];
        [|apply agree_refl].
      destruct src as [e|].
      * apply agree_bind; [now apply take_flags_view|]. intros st1 st1' H1.
        apply agree_bind; [now apply take_action_view|]. intros st2 st2' H2.
        apply IH; [lia | exact H2].
      * destruct (takes_argument last).
        -- destruct rest as [|[v|] rest']; try apply agree_refl.
           apply agree_bind; [now apply take_flags_view|]. intros st1 st1' H1.
           apply agree_bind; [now apply take_action_view|]. intros st2 st2' H2.
           apply IH; [cbn [List.length] in Hn; lia | exact H2].
        -- apply agree_bind; [now apply take_flags_view|]. intros st1 st1' H1.
           apply agree_bind; [now apply take_action_view|]. intros st2 st2' H2.
           apply IH; [lia | exact H2].
    + apply IH; [lia | now apply add_extras_view].
Qed.

Lemma dashes_arguments {X} (l : list X) : dashes (map (fun _ => pA) l) = 0.
Proof. now destruct l. Qed.

Lemma match_group_argument {X} (l : list X) :
  match_group (pA :: map (fun _ => pA) l) = Some 1.
Proof. unfold match_group. cbn. now rewrite dashes_arguments. Qed.

Lemma match_group_arguments p : match_group (pA :: pA :: p) = Some 1.
Proof. reflexivity. Qed.

(** Past the last option and with no [--], arguments are taken one by
    one as before it. *)
Lemma consume_tail_argument s rest st :
  existsb is_option rest = false ->
  consume_tail (A s :: rest) None st
  = consume_tail rest None (take_argument s st).
Proof.
  intros Hrest. unfold consume_tail, take_argument.
  rewrite !app_nil_r. cbn [map arg_string_of].
  destruct st as [p h c e]. cbn [positionals].
  destruct p as [|v1 [|v2 p]]; cbn [List.length Nat.sub Nat.ltb Nat.leb].
  - (* both positionals are missing *)
    cbn [take_positional positionals List.length List.app Nat.sub].
    destruct rest as [|[s2|] rest']; [reflexivity| |discriminate].
    cbn [map match_arguments_partial match_groups].
    rewrite !match_group_arguments. cbn [skipn].
    rewrite !match_group_argument. reflexivity.
  - cbn [take_positional positionals List.length List.app Nat.sub].
    cbn [match_arguments_partial match_groups].
    rewrite match_group_argument. reflexivity.
  - cbn [match_arguments_partial take_positionals add_extras positionals
           st_header st_compressed extras List.length].
    unfold add_extras. cbn [positionals st_header st_compressed extras].
    now rewrite <- app_assoc.
Qed.

Lemma consume_argument s rest st :
  consume (A s :: rest) None st = consume rest None (take_argument s st).
Proof.
  cbn [consume existsb is_option orb].
  destruct (existsb is_option rest) eqn:E; cbn [negb]; [reflexivity|].
  rewrite consume_tail_argument by exact E.
  destruct rest as [|it rest']; [reflexivity|].
  cbn [consume]. now rewrite E.
Qed.

Lemma pending_cons it its : pending (it :: its) = false -> pending its = false.
Proof. destruct its; [reflexivity | exact (fun H => H)]. Qed.

(** The flag sets [compressed] and nothing else. *)
Lemma consume_flag n :
  forall its1, List.length its1 <= n ->
  forall its2 st st',
    view st = view st' -> pending its1 = false ->
    agree (consume (its1 ++ flag_item :: its2) None st)
          (consume (its1 ++ its2) None st').
Proof.
  induction n as [|n IH]; intros its1 Hn its2 st st' H Hp.
  - destruct its1; [|simpl in Hn; lia].
    cbn [List.app]. unfold flag_item at 1. cbn [consume existsb is_option orb negb].
    cbn [resolve bind takes_argument take_flags take_action].
    apply (consume_view (List.length its2)); [lia|].
    same_view H. reflexivity.
  - destruct its1 as [|it rest1].
    { apply (IH []); [simpl; lia | exact H | exact Hp]. }
    cbn [List.length] in Hn.
    destruct it as [s|s [a|] os ea].
    + cbn [List.app]. rewrite !consume_argument.
      apply IH; [lia | now apply take_argument_view | now apply pending_cons in Hp].
    + change ((O s (Some a) os ea :: rest1) ++ flag_item :: its2)%list
        with (O s (Some a) os ea :: (rest1 ++ flag_item :: its2))%list.
      change ((O s (Some a) os ea :: rest1) ++ its2)%list
        with (O s (Some a) os ea :: (rest1 ++ its2))%list.
      cbn [consume existsb is_option orb negb].
      destruct (resolve a os ea) as [[[flags last] src]|e] eqn:Er; cbn [bind];
        [|apply agree_refl].
      destruct src as [e|].
      * apply agree_bind; [now apply take_flags_view|]. intros st1 st1' H1.
        apply agree_bind; [now apply take_action_view|]. intros st2 st2' H2.
        apply IH; [lia | exact H2 | now apply pending_cons in Hp].
      * destruct (takes_argument last) eqn:Et.
        -- destruct rest1 as [|[v|] rest1'].
           ++ unfold pending in Hp. cbn [List.last item_awaits_value] in Hp.
              rewrite Er, Et in Hp. discriminate.
           ++ cbn [List.app].
              apply agree_bind; [now apply take_flags_view|]. intros st1 st1' H1.
              apply agree_bind; [now apply take_action_view|]. intros st2 st2' H2.
              apply IH; [cbn [List.length] in Hn; lia | exact H2 |].
              now apply pending_cons, pending_cons in Hp.
           ++ apply agree_refl.
        -- apply agree_bind; [now apply take_flags_view|]. intros st1 st1' H1.
           apply agree_bind; [now apply take_action_view|]. intros st2 st2' H2.
           apply IH; [lia | exact H2 | now apply pending_cons in Hp].
    + change ((O s None os ea :: rest1) ++ flag_item :: its2)%list
        with (O s None os ea :: (rest1 ++ flag_item :: its2))%list.
      change ((O s None os ea :: rest1) ++ its2)%list
        with (O s None os ea :: (rest1 ++ its2))%list.
      cbn [consume existsb is_option orb negb].
      apply IH; [lia | now apply add_extras_view | now apply pending_cons in Hp].
Qed.

(** Classification, string by string. *)
Lemma classify_items arg_strings :
  ~ In "--" arg_strings ->
  classify arg_strings
  = match items_of arg_strings with
    | Some its => Ok (its, None)
    | None => Raise (SystemExit 2)
    end.
Proof.
  induction arg_strings as [|x l IH]; intros Hd; [reflexivity|].
  cbn [classify items_of].
  destruct (String.eqb_spec x "--") as [->|Hx]; [exfalso; apply Hd; now left|].
  rewrite IH by (intros F; apply Hd; now right).
  unfold item_of.
  destruct (parse_optional x); [| |reflexivity];
    destruct (items_of l); reflexivity.
Qed.

Lemma items_of_app l1 l2 :
  items_of (l1 ++ l2)
  = match items_of l1, items_of l2 with
    | Some a, Some b => Some (a ++ b)%list
    | _, _ => None
    end.
Proof.
  induction l1 as [|x l1 IH]; cbn [List.app items_of].
  - now destruct (items_of l2).
  - rewrite IH. destruct (item_of x); [|reflexivity].
    destruct (items_of l1); [|reflexivity].
    now destruct (items_of l2).
Qed.

Lemma items_of_pending l its :
  items_of l = Some its ->
  pending its = awaits_value (last l EmptyString).
Proof.
  revert its. induction l as [|x l IH]; intros its.
  - intros [= <-]. reflexivity.
  - cbn [items_of]. destruct (item_of x) as [it|] eqn:Ex; [|discriminate].
    destruct (items_of l) as [its'|] eqn:El; [|discriminate].
    intros [= <-]. destruct l as [|y l].
    + injection El as <-. unfold pending, awaits_value. cbn [last].
      now rewrite Ex.
    + destruct its' as [|it' its']; [cbn [items_of] in El;
        destruct (item_of y); [destruct (items_of l)|]; discriminate|].
      change (pending (it :: it' :: its')) with (pending (it' :: its')).
      now rewrite (IH _ eq_refl).
Qed.

End Compressed.

(** [parse_context] reads the URL and the headers of the namespace. *)
Lemma context_of_view ns ns' :
  Argparse.url ns = Argparse.url ns' ->
  Argparse.header ns = Argparse.header ns' ->
  context_of ns = context_of ns'.
Proof. intros Hu Hh. unfold context_of. now rewrite Hu, Hh. Qed.

Lemma parse_args_flag (before after : list string) :
  ~ In "--" (before ++ after) ->
  awaits_value (last before EmptyString) = false ->
  bind (Argparse.parse_args (before ++ "--compressed" :: after)) context_of
  = bind (Argparse.parse_args (before ++ after)) context_of.
Proof.
  intros Hd Hp. unfold Argparse.parse_args.
  rewrite !classify_items.
  2: exact Hd.
  2: { intros F. apply in_app_or in F as [F|[F|F]];
       [apply Hd, in_or_app; now left | discriminate
       | apply Hd, in_or_app; now right]. }
  rewrite !items_of_app. cbn [items_of].
  replace (item_of "--compressed") with (Some flag_item) by reflexivity.
  destruct (items_of before) as [its1|] eqn:E1; [|reflexivity].
  destruct (items_of after) as [its2|] eqn:E2; [|reflexivity].
  cbn [bind fst snd].
  assert (agree (Argparse.consume (its1 ++ flag_item :: its2) None Argparse.initial)
                (Argparse.consume (its1 ++ its2) None Argparse.initial)) as Ha.
  { apply (consume_flag (List.length its1)); [lia | reflexivity |].
    now rewrite (items_of_pending _ _ E1). }
  unfold agree, rmap in Ha.
  destruct (Argparse.consume (its1 ++ flag_item :: its2) None Argparse.initial)
    as [[p h c e]|x],
    (Argparse.consume (its1 ++ its2) None Argparse.initial) as [[p' h' c' e']|x'];
    cbn [bind] in *; try discriminate.
  - unfold view in Ha.
    cbn [Argparse.positionals Argparse.st_header Argparse.extras] in *.
    injection Ha as -> -> ->.
    destruct p' as [|v1 [|v2 [|v3 p']]]; try reflexivity.
    destruct e'; [|reflexivity]. cbn [bind]. now apply context_of_view.
  - now injection Ha as ->.
Qed.

(** C7, as it stands, fails.  Put between [-H] and its value, the flag
    makes the parser stop with an error, where the command without the
    flag parses; and after a [--] the flag is read as a positional, one
    too many. *)
Lemma compressed_flag_misplaced :
  Shlex.split (normalize_newlines header_command)
  = Ok (["curl"; "'u'"; "-H"] ++ ["'A: b'"])%list
  /\ Shlex.split (normalize_newlines flag_after_option_command)
     = Ok (["curl"; "'u'"; "-H"] ++ "--compressed" :: ["'A: b'"])%list
  /\ parse_context header_command = Ok (mkParsedContext "u" [("A", "b")])
  /\ parse_context flag_after_option_command = Raise (SystemExit 2)
  /\ parse_context flag_after_option_command <> parse_context header_command
  /\ parse_context "curl -- 'u'" = Ok (mkParsedContext "u" [])
  /\ parse_context "curl -- --compressed 'u'" = Raise (SystemExit 2).
Proof. repeat split; vm_compute; (reflexivity || discriminate). Qed.

(** C7, amended.  Take a curl command whose tokens have no [--] among
    them, and put the token [--compressed] anywhere but right after an
    option that waits for its value ([-H], [--header] and the like):
    [parse_context] gives the same parsed context, or fails in the same
    way, as for the command without the flag. *)
Theorem compressed_flag_ignored
  (curl_command with_flag : string) (before after : list string) :
  Shlex.split (normalize_newlines curl_command) = Ok (before ++ after)%list ->
  Shlex.split (normalize_newlines with_flag)
  = Ok (before ++ "--compressed" :: after)%list ->
  ~ In "--" (before ++ after)%list ->
  awaits_value (last before EmptyString) = false ->
  parse_context with_flag = parse_context curl_command.
Proof.
  intros H1 H2 Hd Hp. unfold parse_context, curl_args.
  rewrite H1, H2. cbn [bind]. now apply parse_args_flag.
Qed.

(** An instance of C7 as amended: the flag before [-H]. *)
Lemma compressed_flag_ignored_witness :
  parse_context flag_before_option_command = parse_context header_command
  /\ parse_context header_command = Ok (mkParsedContext "u" [("A", "b")]).
Proof.
  split; [|vm_compute; reflexivity].
  apply (compressed_flag_ignored header_command flag_before_option_command
           ["curl"; "'u'"] ["-H"; "'A: b'"]).
  - vm_compute. reflexivity.
  - vm_compute. reflexivity.
  - intros F. repeat (destruct F as [F|F]; [discriminate|]). exact F.
  - vm_compute. reflexivity.
Defined.

(** * Further properties *)

(** * More on the normaliser *)

Section Continuations.

Lemma prefix_continuation_kept (c : ascii) (r b : string) :
  String.prefix continuation (String c r) = false ->
  String.prefix continuation (String c (r ++ continuation ++ b)) = false.
Proof.
  rewrite !prefix_continuation. destruct (Ascii.eqb " " c); [|reflexivity].
  cbn [andb]. unfold after_space.
  destruct r as [|d [|e r]]; cbn [append].
  - intros _. reflexivity.
  - intros _. unfold continuation. cbn [append]. now rewrite !prefix_cons, andb_false_r.
  - now rewrite !prefix_cons, !prefix_nil.
Qed.

Lemma newline_in_continuation (s : string) :
  Py.contains (Py.chr Py.newline) s = false ->
  Py.contains continuation s = false.
Proof.
  induction s as [|c s IH]; intros H; [reflexivity|].
  rewrite contains_cons in *. apply orb_false_iff in H as [Hc Hs].
  rewrite (IH Hs), orb_false_r.
  destruct (String.prefix continuation (String c s)) eqn:E; [|reflexivity].
  apply prefix_split in E as [r Hr]. unfold continuation in Hr.
  cbn [append] in Hr. injection Hr as -> ->.
  rewrite !contains_cons in Hs. unfold Py.chr in Hs.
  rewrite !prefix_cons, !prefix_nil in Hs. discriminate.
Qed.

End Continuations.

Lemma normalize_app_continuation (a b : string) :
  normalize_newlines (a ++ continuation ++ b)
  = normalize_newlines a ++ " " ++ normalize_newlines b.
Proof.
  induction a as [|r IH|c r Hp IH] using continuation_ind.
  - cbn [append]. now rewrite normalize_hit.
  - rewrite append_assoc, !normalize_hit, IH. reflexivity.
  - cbn [append].
    rewrite normalize_miss by (now apply prefix_continuation_kept).
    rewrite normalize_miss by exact Hp. now rewrite IH.
Qed.

(** X1.  A continuation cuts the text in two parts that are normalised
    apart: the result is the first part normalised, one space, and the
    second part normalised. *)
Theorem normalize_newlines_at_continuation (a b : string) :
  normalize_newlines (a ++ continuation ++ b)
  = normalize_newlines a ++ " " ++ normalize_newlines b.
Proof. exact (normalize_app_continuation a b). Qed.

Lemma normalize_without_newline (s : string) :
  Py.contains (Py.chr Py.newline) s = false -> normalize_newlines s = s.
Proof. intros H. now apply normalize_fixed, newline_in_continuation. Qed.

(** X2.  A text with no newline in it has no continuation: it is left as
    it is. *)
Theorem normalize_newlines_one_line (s : string) :
  Py.contains (Py.chr Py.newline) s = false -> normalize_newlines s = s.
Proof. exact (normalize_without_newline s). Qed.

Lemma normalize_newlines_one_line_witness :
  normalize_newlines "curl 'http://e.com' -H 'A: b'" = "curl 'http://e.com' -H 'A: b'".
Proof. apply normalize_newlines_one_line. reflexivity. Defined.

(** * Quotes around the URL *)

Section Quotes.

Lemma endswith_app (p y : string) : Py.endswith p (y ++ p) = true.
Proof.
  induction y as [|c y IH]; cbn [append].
  - destruct p; cbn [Py.endswith]; now rewrite String.eqb_refl.
  - cbn [Py.endswith]. rewrite IH. apply orb_true_r.
Qed.

Lemma drop_last_app (y : string) (c : ascii) : Py.drop_last (y ++ Py.chr c) = y.
Proof.
  induction y as [|d y IH]; [reflexivity|].
  cbn [append Py.drop_last]. rewrite IH. now destruct y.
Qed.

Lemma contains_chr_app (c : ascii) (a b : string) :
  Py.contains (Py.chr c) (a ++ b)
  = Py.contains (Py.chr c) a || Py.contains (Py.chr c) b.
Proof.
  induction a as [|d a IH]; cbn [append].
  - now destruct b.
  - rewrite !contains_cons, IH. unfold Py.chr.
    now rewrite !prefix_cons, !prefix_nil, orb_assoc.
Qed.

Lemma startswith_quote (y : string) : Py.startswith quote (quote ++ y) = true.
Proof. unfold Py.startswith. apply prefix_app. Qed.

Lemma clean_url_quoted (y : string) : clean_url (quote ++ y ++ quote) = y.
Proof.
  unfold clean_url. rewrite startswith_quote.
  change (Py.drop_first (quote ++ y ++ quote)) with (y ++ quote).
  rewrite endswith_app. apply drop_last_app.
Qed.

End Quotes.

(** X3.  [clean_url] takes one quote off each end and no more: whatever
    stands between a leading and a trailing single quote is the URL,
    and a text that neither starts nor ends with a single quote is kept
    as it is. *)
Theorem clean_url_one_quote_each_end (y : string) :
  clean_url (quote ++ y ++ quote) = y
  /\ (Py.startswith quote y = false -> Py.endswith quote y = false ->
      clean_url y = y).
Proof.
  split.
  - apply clean_url_quoted.
  - intros H1 H2. unfold clean_url. now rewrite H1, H2.
Qed.

Lemma clean_url_one_quote_each_end_witness :
  clean_url "''http://e.com''" = "'http://e.com'"
  /\ clean_url "http://e.com" = "http://e.com".
Proof.
  split.
  - apply (proj1 (clean_url_one_quote_each_end "'http://e.com'")).
  - apply (proj2 (clean_url_one_quote_each_end "http://e.com")); reflexivity.
Defined.

(** * Quoted tokens *)

Section QuotedTokens.

Lemma rmap_rmap {A B C : Type} (f : A -> B) (g : B -> C) (r : result A) :
  rmap g (rmap f r) = rmap (fun a => g (f a)) r.
Proof. now destruct r. Qed.

(** Inside a quoted token everything up to the closing quote belongs to
    the token, blanks included. *)
Lemma tokens_quoted (q : ascii) (x token rest : string) :
  Py.contains (Py.chr q) x = false ->
  Shlex.tokens (Shlex.Quoted q) token (x ++ String q rest)
  = rmap (cons (token ++ x ++ Py.chr q))
         (Shlex.tokens Shlex.Blank EmptyString rest).
Proof.
  revert token. induction x as [|c x IH]; intros token H.
  - cbn [append Shlex.tokens]. now rewrite Ascii.eqb_refl.
  - rewrite contains_cons in H. apply orb_false_iff in H as [Hc Hx].
    unfold Py.chr in Hc. rewrite prefix_cons, prefix_nil, andb_true_r in Hc.
    cbn [append Shlex.tokens]. rewrite Ascii.eqb_sym, Hc, (IH _ Hx).
    unfold Py.chr. now rewrite !append_assoc.
Qed.

(** A token that opens with a single quote and closes with the next
    one. *)
Lemma tokens_single_quoted (x rest : string) :
  Py.contains quote x = false ->
  Shlex.tokens Shlex.Blank EmptyString (quote ++ x ++ quote ++ rest)
  = rmap (cons (quote ++ x ++ quote))
         (Shlex.tokens Shlex.Blank EmptyString rest).
Proof.
  intros H.
  change (quote ++ x ++ quote ++ rest) with (String Py.squote (x ++ String Py.squote rest)).
  cbn [Shlex.tokens].
  replace (Shlex.whitespace Py.squote) with false by reflexivity.
  replace (Shlex.quotes Py.squote) with true by reflexivity.
  now rewrite tokens_quoted.
Qed.

End QuotedTokens.

(** X4.  A command that is [curl] and a URL between single quotes: when
    the URL has no single quote and no newline in it, it is what the
    parsed context holds, spaces included, there is no header, and the
    generated command is [streamlink], the URL and [best]. *)
Theorem quoted_url_is_unquoted (x : string) :
  Py.contains quote x = false ->
  Py.contains (Py.chr Py.newline) x = false ->
  parse_context ("curl " ++ quote ++ x ++ quote) = Ok (mkParsedContext x [])
  /\ generate_streamlink_command (mkParsedContext x [])
     = "streamlink " ++ x ++ " best".
Proof.
  intros Hq Hn. split; [|reflexivity].
  unfold parse_context, curl_args.
  rewrite normalize_without_newline.
  2: { rewrite !contains_chr_app, Hn. reflexivity. }
  unfold Shlex.split.
  change ("curl " ++ quote ++ x ++ quote)
    with (String "c" (String "u" (String "r" (String "l" (String " "
            (quote ++ x ++ quote ++ EmptyString)))))).
  cbn [Shlex.tokens Shlex.whitespace Shlex.quotes Ascii.eqb Bool.eqb orb
         Py.squote Py.dquote Py.chr append].
  change (String "'" (x ++ "'")) with (quote ++ x ++ quote ++ EmptyString).
  rewrite tokens_single_quoted by exact Hq.
  cbn [Shlex.tokens rmap bind].
  change (quote ++ x ++ quote) with (String Py.squote (x ++ quote)).
  cbn -[clean_url quote append].
  change (String Py.squote (x ++ quote)) with (quote ++ x ++ quote).
  now rewrite clean_url_quoted.
Qed.

Lemma quoted_url_is_unquoted_witness :
  parse_context ("curl " ++ quote ++ "http://e.com/a b" ++ quote)
  = Ok (mkParsedContext "http://e.com/a b" []).
Proof.
  apply (quoted_url_is_unquoted "http://e.com/a b"); reflexivity.
Defined.

(** * The split at the first colon *)

Section FirstColon.

Lemma contains_chr_cons (c d : ascii) (s : string) :
  Py.contains (Py.chr c) (String d s) = Ascii.eqb c d || Py.contains (Py.chr c) s.
Proof.
  rewrite contains_cons. unfold Py.chr.
  now rewrite prefix_cons, prefix_nil, andb_true_r.
Qed.

Lemma split1_first (c : ascii) (a b : string) :
  Py.contains (Py.chr c) a = false ->
  Py.split1 (Py.chr c) (a ++ Py.chr c ++ b) = [a; b].
Proof.
  induction a as [|d a IH]; intros H.
  - cbn [append Py.chr Py.split1 Py.drop_prefix]. now rewrite Ascii.eqb_refl.
  - rewrite contains_chr_cons in H. apply orb_false_iff in H as [Hd Ha].
    cbn [append Py.split1]. unfold Py.chr at 1. cbn [Py.drop_prefix].
    rewrite Hd. fold (Py.chr c). now rewrite (IH Ha).
Qed.

Lemma split1_with (c : ascii) (s : string) :
  Py.contains (Py.chr c) s = true ->
  exists a b, Py.split1 (Py.chr c) s = [a; b].
Proof.
  induction s as [|d s IH]; intros H; [discriminate|].
  rewrite contains_chr_cons in H. cbn [Py.split1]. unfold Py.chr at 1.
  cbn [Py.drop_prefix]. destruct (Ascii.eqb c d).
  - now exists EmptyString, s.
  - cbn [orb] in H. fold (Py.chr c). destruct (IH H) as (a & b & ->).
    now exists (String d a), b.
Qed.

End FirstColon.

(** X5.  A header string is cut at its first colon: with no colon in the
    text before it, that text (less a leading single quote) is the name,
    and all that follows, further colons included, gives the value; the
    loop stores the pair unless the name is excluded. *)
Theorem header_cut_at_first_colon
  (header_key header_value : string) (quoted_headers : odict) :
  Py.contains ":" header_key = false ->
  header_step quoted_headers
              (Argparse.Str (header_key ++ ":" ++ header_value))
  = Ok (if excluded (clean_key header_key) then quoted_headers
        else od_set (clean_key header_key)
                    (Py.strip (clean_value header_value)) quoted_headers).
Proof.
  intros H. rewrite header_step_entry. unfold header_entry.
  pose proof (split1_first ":"%char header_key header_value H) as E.
  unfold Py.chr in E. now rewrite E.
Qed.

Lemma header_cut_at_first_colon_witness :
  header_step [] (Argparse.Str ("'Referer" ++ ":" ++ " https://e.com:8080/'"))
  = Ok [("Referer", "https://e.com:8080/")].
Proof.
  rewrite (header_cut_at_first_colon "'Referer" " https://e.com:8080/'" []
             eq_refl).
  reflexivity.
Defined.

(** * Unique names *)

Section UniqueNames.

Lemma od_set_key_in (key value : string) (d : odict) (k : string) :
  In k (map fst (od_set key value d)) -> k = key \/ In k (map fst d).
Proof.
  intros H. apply in_map_iff in H as ([k' v'] & <- & Hin).
  apply od_set_in in Hin as [[-> ->]|Hin]; [now left|].
  right. apply in_map_iff. now exists (k', v').
Qed.

Lemma od_set_nodup (key value : string) (d : odict) :
  NoDup (map fst d) -> NoDup (map fst (od_set key value d)).
Proof.
  induction d as [|[k0 v0] d IH]; intros H; cbn [od_set map fst].
  - constructor; [intros [] | constructor].
  - inversion H as [|? ? Hk0 Hd]; subst.
    destruct (String.eqb_spec k0 key) as [->|Hne]; cbn [map fst].
    + now constructor.
    + constructor; [|now apply IH].
      intros F. apply od_set_key_in in F as [F|F]; [congruence | contradiction].
Qed.

Lemma header_loop_nodup (l : list Argparse.value) :
  forall d d', NoDup (map fst d) -> header_loop l d = Ok d' -> NoDup (map fst d').
Proof.
  induction l as [|h l IH]; intros d d' Hd; cbn [header_loop].
  - now intros [= <-].
  - destruct (header_step d h) as [d1|] eqn:E; [|discriminate]. cbn [bind].
    apply header_step_ok in E as (s & k & v & -> & _ & ->).
    apply IH. destruct (excluded k); [exact Hd | now apply od_set_nodup].
Qed.

End UniqueNames.

(** X6.  The names of the parsed context are the retained names of the
    header strings, each once: a name is a key exactly when a header
    string bears it and it is not excluded, no key comes twice, and each
    key has the value of the last header string that bears it. *)
Theorem headers_are_the_retained_names
  (curl_command : string) (ns : Argparse.Namespace) (ctx : ParsedContext) :
  curl_args curl_command = Ok ns ->
  parse_context curl_command = Ok ctx ->
  NoDup (map fst (headers ctx))
  /\ (forall k, In k (map fst (headers ctx)) <->
                exists s v, In (Argparse.Str s) (Argparse.header ns)
                            /\ header_entry s = Some (k, v)
                            /\ excluded k = false)
  /\ (forall pre s post k v,
         Argparse.header ns = (pre ++ Argparse.Str s :: post)%list ->
         header_entry s = Some (k, v) ->
         excluded k = false ->
         (forall s' e, In (Argparse.Str s') post -> header_entry s' = Some e ->
                       fst e <> k) ->
         od_get k (headers ctx) = Some v).
Proof.
  intros Hns Hctx.
  apply parse_context_ok in Hctx as (ns' & u & Hns' & _ & Hl & _).
  assert (ns' = ns) as -> by congruence.
  split; [|split].
  - apply (header_loop_nodup _ [] _ (NoDup_nil _) Hl).
  - intros k. split.
    + intros Hin. apply in_map_iff in Hin as ([k' v'] & <- & Hin). cbn [fst].
      revert k' v' Hin.
      eapply (header_loop_invariant
                (fun k _ => exists s v, In (Argparse.Str s) (Argparse.header ns)
                                        /\ header_entry s = Some (k, v)
                                        /\ excluded k = false));
        [ | | exact Hl]; [|intros ? ? []].
      intros s k' v' Hs He Hx. now exists s, v'.
    + intros (s & v & Hs & He & Hx).
      destruct (header_loop_present _ _ _ _ _ _ Hl Hs He Hx) as [i Hi].
      destruct (od_index_nth _ _ _ Hi) as [w Hw].
      apply in_map_iff. exists (k, w). split; [reflexivity|].
      now apply nth_error_In in Hw.
  - intros pre s post k v Hh He Hx Hpost.
    rewrite Hh, header_loop_app in Hl.
    destruct (header_loop pre []) as [d0|]; [|discriminate].
    cbn [bind header_loop] in Hl. rewrite header_step_entry, He, Hx in Hl.
    cbn [bind] in Hl.
    rewrite (header_loop_get _ _ _ _ Hl Hpost). apply od_get_set_same.
Qed.

Lemma headers_are_the_retained_names_witness :
  let ctx := mkParsedContext "http://e.com" [("Accept", "c"); ("X-Test", "b")] in
  parse_context repeated_command = Ok ctx
  /\ NoDup (map fst (headers ctx)).
Proof.
  split; [vm_compute; reflexivity|].
  apply (headers_are_the_retained_names
           repeated_command
           (Argparse.mkNamespace (Argparse.Str "curl")
              (Argparse.Str "'http://e.com'")
              [Argparse.Str "'Accept: a'"; Argparse.Str "'X-Test: b'";
               Argparse.Str "'Accept: c'"] false)).
  - vm_compute. reflexivity.
  - vm_compute. reflexivity.
Defined.

(** * When the headers are accepted *)

Section Accepted.

Lemma header_loop_ok (l : list Argparse.value) :
  Forall (fun h => exists s, h = Argparse.Str s /\ Py.contains ":" s = true) l ->
  forall d, exists d', header_loop l d = Ok d'.
Proof.
  induction 1 as [|h l (s & -> & Hs) _ IH]; intros d; cbn [header_loop].
  - now exists d.
  - rewrite header_step_entry. unfold header_entry.
    destruct (split1_with ":"%char s Hs) as (a & b & E).
    unfold Py.chr in E. rewrite E. cbn [bind]. apply IH.
Qed.

Lemma header_loop_all (l : list Argparse.value) :
  forall d d', header_loop l d = Ok d' ->
  Forall (fun h => exists s, h = Argparse.Str s /\ Py.contains ":" s = true) l.
Proof.
  induction l as [|h l IH]; intros d d'; cbn [header_loop]; [constructor|].
  destruct (header_step d h) as [d1|] eqn:E; [|discriminate]. cbn [bind].
  intros Hl. constructor; [|now apply (IH d1 d')].
  apply header_step_ok in E as (s & k & v & -> & He & _).
  exists s. split; [reflexivity|].
  destruct (Py.contains ":" s) eqn:Ec; [reflexivity|].
  rewrite header_entry_without_colon in He by exact Ec. discriminate.
Qed.

End Accepted.

(** X7.  Once the arguments are parsed, [parse_context] gives a context
    exactly when the URL is a string and every header is a string with a
    colon in it: nothing else can make it fail. *)
Theorem parse_context_succeeds_iff
  (curl_command : string) (ns : Argparse.Namespace) :
  curl_args curl_command = Ok ns ->
  ((exists ctx, parse_context curl_command = Ok ctx)
   <-> (exists u, Argparse.url ns = Argparse.Str u)
       /\ Forall (fun h => exists s, h = Argparse.Str s
                                     /\ Py.contains ":" s = true)
                 (Argparse.header ns)).
Proof.
  intros Hns. unfold parse_context. rewrite Hns. cbn [bind]. unfold context_of.
  split.
  - intros [ctx H]. destruct (Argparse.url ns) as [u|]; [|discriminate].
    split; [now exists u|].
    destruct (header_loop (Argparse.header ns) []) as [d|] eqn:El; [|discriminate].
    now apply (header_loop_all _ _ _ El).
  - intros [[u ->] Hall].
    destruct (header_loop_ok _ Hall []) as [d ->]. cbn [bind]. eauto.
Qed.

Lemma parse_context_succeeds_iff_witness :
  exists ctx, parse_context repeated_command = Ok ctx.
Proof.
  apply (parse_context_succeeds_iff
           repeated_command
           (Argparse.mkNamespace (Argparse.Str "curl")
              (Argparse.Str "'http://e.com'")
              [Argparse.Str "'Accept: a'"; Argparse.Str "'X-Test: b'";
               Argparse.Str "'Accept: c'"] false)).
  - vm_compute. reflexivity.
  - split; [now exists "'http://e.com'"|].
    repeat constructor; eexists; (split; [reflexivity | vm_compute; reflexivity]).
Defined.

(** * Trimmed values *)

Section Trimmed.

Lemma lstrip_head (s : string) :
  Py.lstrip s = EmptyString
  \/ exists c t, Py.lstrip s = String c t /\ Py.isspace c = false.
Proof.
  induction s as [|c s IH]; [now left|]. cbn [Py.lstrip].
  destruct (Py.isspace c) eqn:E; [exact IH|]. right. now exists c, s.
Qed.

Lemma rstrip_head (c : ascii) (t : string) :
  Py.isspace c = false -> exists r, Py.rstrip (String c t) = String c r.
Proof.
  intros H. cbn [Py.rstrip]. destruct (Py.rstrip t) as [|d r].
  - rewrite H. now exists EmptyString.
  - now exists (String d r).
Qed.

Lemma rstrip_cons (c : ascii) (t r : string) :
  Py.rstrip t = r -> r <> EmptyString -> Py.rstrip (String c t) = String c r.
Proof.
  intros H Hr. cbn [Py.rstrip]. rewrite H. destruct r; [congruence | reflexivity].
Qed.

Lemma rstrip_rstrip (s : string) : Py.rstrip (Py.rstrip s) = Py.rstrip s.
Proof.
  induction s as [|c s IH]; [reflexivity|]. cbn [Py.rstrip].
  destruct (Py.rstrip s) as [|d r] eqn:E.
  - destruct (Py.isspace c) eqn:Ec; [reflexivity|].
    cbn [Py.chr Py.rstrip]. now rewrite Ec.
  - apply rstrip_cons; [exact IH | discriminate].
Qed.

Lemma strip_strip (s : string) : Py.strip (Py.strip s) = Py.strip s.
Proof.
  unfold Py.strip. destruct (lstrip_head s) as [->|(c & t & -> & Hc)].
  - reflexivity.
  - destruct (rstrip_head c t Hc) as [r Hr]. rewrite Hr.
    cbn [Py.lstrip]. rewrite Hc, <- Hr. apply rstrip_rstrip.
Qed.

End Trimmed.

(** X8.  Every value of the parsed context is ready for the command
    line: it has no blank at either end, and it either stands between
    single quotes or has neither a space nor a double quote in it. *)
Theorem stored_values_are_trimmed
  (curl_command : string) (ctx : ParsedContext) (k v : string) :
  parse_context curl_command = Ok ctx ->
  In (k, v) (headers ctx) ->
  Py.strip v = v
  /\ ((exists t, v = quote ++ t ++ quote)
      \/ (Py.contains " " v = false
          /\ Py.contains (Py.chr Py.dquote) v = false)).
Proof.
  intros H. apply parse_context_ok in H as (ns & u & _ & _ & Hl & _).
  revert k v.
  eapply header_loop_invariant; [ | | exact Hl]; [|intros ? ? []].
  intros s k v _ He _. unfold header_entry in He.
  destruct (Py.split1 ":" s) as [|hk [|hv [|? ?]]]; try discriminate.
  injection He as _ <-. rewrite stored_value. cbv zeta.
  destruct (Py.contains " " (trimmed hv)) eqn:E1; cbn [orb].
  - split; [apply strip_quoted | left; now exists (trimmed hv)].
  - destruct (Py.contains (Py.chr Py.dquote) (trimmed hv)) eqn:E2.
    + split; [apply strip_quoted | left; now exists (trimmed hv)].
    + split; [apply strip_strip | right; now split].
Qed.

Lemma stored_values_are_trimmed_witness :
  let ctx := mkParsedContext "http://example.com" [("X-Test", "'a b'")] in
  parse_context scenario_2_command = Ok ctx
  /\ Py.strip "'a b'" = "'a b'".
Proof.
  split; [vm_compute; reflexivity|].
  apply (stored_values_are_trimmed
           scenario_2_command
           (mkParsedContext "http://example.com" [("X-Test", "'a b'")])
           "X-Test" "'a b'").
  - vm_compute. reflexivity.
  - now left.
Defined.

(** * The generator, header by header *)

(** X9.  The generated command grows with the mapping: a name that is
    not yet a key adds its own [--http-header] to the end of the command
    and leaves the rest as it was. *)
Theorem generated_command_grows (u k v : string) (d : odict) :
  od_get k d = None ->
  generate_streamlink_command (mkParsedContext u (od_set k v d))
  = generate_streamlink_command (mkParsedContext u d)
    ++ " --http-header " ++ k ++ "=" ++ v.
Proof.
  intros H.
  assert (od_set k v d = (d ++ [(k, v)])%list) as ->.
  { induction d as [|[k0 v0] d IH]; [reflexivity|].
    cbn [od_get od_set] in *. destruct (String.eqb k0 k); [discriminate|].
    now rewrite (IH H). }
  rewrite !generate_closed_form. cbn [headers].
  rewrite map_app, concat_app. cbn [map]. unfold command_head. cbn [url].
  unfold header_text. cbn [fst snd String.concat].
  now rewrite !append_assoc.
Qed.

Lemma generated_command_grows_witness :
  generate_streamlink_command
    (mkParsedContext "u" (od_set "B" "2" [("A", "1")]))
  = generate_streamlink_command (mkParsedContext "u" [("A", "1")])
    ++ " --http-header " ++ "B" ++ "=" ++ "2".
Proof. apply generated_command_grows. reflexivity. Defined.

(** * What the parser rejects *)

Section Rejected.

Import Argparse.

Lemma take_positionals_extras counts :
  forall l st, extras (fst (take_positionals counts l st)) = extras st.
Proof.
  induction counts as [|n counts IH]; intros l st; cbn [take_positionals].
  - reflexivity.
  - now rewrite IH.
Qed.

Lemma consume_tail_extras its after st :
  exists l, extras (consume_tail its after st) = (extras st ++ l)%list.
Proof.
  unfold consume_tail.
  set (counts := match_arguments_partial _ _). set (strs := (_ ++ _)%list).
  pose proof (take_positionals_extras counts strs st) as H.
  destruct (take_positionals counts strs st) as [st1 rest]. cbn [fst] in H.
  exists rest. cbn [add_extras extras]. now rewrite H.
Qed.

Lemma take_argument_extras s st :
  exists l, extras (take_argument s st) = (extras st ++ l)%list.
Proof.
  unfold take_argument. destruct (_ <? _)%nat; cbn [take_positional add_extras extras].
  - exists []. now rewrite app_nil_r.
  - now exists [s].
Qed.

Lemma take_action_extras a l st st' :
  take_action a l st = Ok st' -> extras st' = extras st.
Proof. destruct a; cbn [take_action]; [discriminate| |]; now intros [= <-]. Qed.

Lemma take_flags_extras flags :
  forall st st', take_flags flags st = Ok st' -> extras st' = extras st.
Proof.
  induction flags as [|a flags IH]; intros st st'; cbn [take_flags].
  - now intros [= <-].
  - destruct (take_action a [] st) as [st1|] eqn:E; [|discriminate]. cbn [bind].
    intros H. rewrite (IH _ _ H). now apply take_action_extras in E.
Qed.

(** Extras are never taken back. *)
Lemma consume_extras n :
  forall its, List.length its <= n ->
  forall after st st',
    consume its after st = Ok st' ->
    exists l, extras st' = (extras st ++ l)%list.
Proof.
  induction n as [|n IH]; intros its Hn after st st'.
  - destruct its; [|simpl in Hn; lia]. cbn [consume]. intros [= <-].
    apply consume_tail_extras.
  - destruct its as [|it rest]; [cbn [consume]; intros [= <-]; apply consume_tail_extras|].
    cbn [List.length] in Hn. cbn [consume].
    destruct (negb (existsb is_option (it :: rest)));
      [intros [= <-]; apply consume_tail_extras|].
    destruct it as [s|s [a|] os ea].
    + intros H. apply IH in H as [l Hl]; [|lia].
      destruct (take_argument_extras s st) as [l0 Hl0].
      exists (l0 ++ l)%list. now rewrite Hl, Hl0, app_assoc.
    + destruct (resolve a os ea) as [[[flags last] src]|e]; cbn [bind]; [|discriminate].
      assert (forall args rest0, List.length rest0 <= n ->
                (st1 <- take_flags flags st;; st2 <- take_action last args st1;;
                 consume rest0 after st2) = Ok st' ->
                exists l, extras st' = (extras st ++ l)%list) as Hgo.
      { intros args rest0 Hr H.
        destruct (take_flags flags st) as [st1|] eqn:E1; [|discriminate].
        cbn [bind] in H.
        destruct (take_action last args st1) as [st2|] eqn:E2; [|discriminate].
        cbn [bind] in H. apply IH in H as [l Hl]; [|exact Hr].
        exists l. rewrite Hl. apply take_action_extras in E2.
        apply take_flags_extras in E1. congruence. }
      destruct src as [e|].
      * apply Hgo. lia.
      * destruct (takes_argument last).
        -- destruct rest as [|[v|] rest']; try discriminate.
           apply Hgo. cbn [List.length] in Hn. lia.
        -- apply Hgo. lia.
    + intros H. apply IH in H as [l Hl]; [|lia].
      exists ([s] ++ l)%list. rewrite Hl. cbn [add_extras extras].
      now rewrite <- app_assoc.
Qed.

(** An unknown option ends among the extras. *)
Lemma consume_unknown n :
  forall its, List.length its <= n ->
  forall after st st' s os ea,
    In (O s None os ea) its ->
    consume its after st = Ok st' ->
    extras st' <> [].
Proof.
  induction n as [|n IH]; intros its Hn after st st' s os ea Hin.
  - destruct its; [destruct Hin | simpl in Hn; lia].
  - destruct its as [|it rest]; [destruct Hin|].
    cbn [List.length] in Hn. cbn [consume].
    assert (existsb is_option (it :: rest) = true) as ->.
    { apply existsb_exists. now exists (O s None os ea). }
    cbn [negb].
    destruct it as [s0|s0 [a|] os0 ea0].
    + destruct Hin as [Hin|Hin]; [discriminate|].
      apply (IH rest) with (s := s) (os := os) (ea := ea); [lia | exact Hin].
    + destruct Hin as [Hin|Hin]; [discriminate|].
      destruct (resolve a os0 ea0) as [[[flags last] src]|e]; cbn [bind]; [|discriminate].
      assert (forall args rest0, List.length rest0 <= n -> In (O s None os ea) rest0 ->
                (st1 <- take_flags flags st;; st2 <- take_action last args st1;;
                 consume rest0 after st2) = Ok st' ->
                extras st' <> []) as Hgo.
      { intros args rest0 Hr Hin0 H.
        destruct (take_flags flags st) as [st1|]; [|discriminate]. cbn [bind] in H.
        destruct (take_action last args st1) as [st2|]; [|discriminate].
        cbn [bind] in H.
        now apply (IH rest0 Hr after st2 st' s os ea Hin0). }
      destruct src as [e|].
      * apply Hgo; [lia | exact Hin].
      * destruct (takes_argument last).
        -- destruct rest as [|[v|] rest']; try discriminate.
           destruct Hin as [Hin|Hin]; [discriminate|].
           apply Hgo; [cbn [List.length] in Hn; lia | exact Hin].
        -- apply Hgo; [lia | exact Hin].
    + intros H. apply (consume_extras n) in H as [l Hl]; [|lia].
      rewrite Hl. cbn [add_extras extras].
      destruct (extras st); discriminate.
Qed.

Lemma option_chain_raises a os ea e :
  option_chain a os ea = Raise e -> e = SystemExit 2.
Proof.
  revert a os. induction ea as [|c ea IH]; intros a os; cbn [option_chain].
  - destruct (takes_argument a); [discriminate|].
    destruct os as [|c0 [|c1 os]]; now intros [= <-].
  - destruct (takes_argument a); [discriminate|].
    destruct os as [|c0 [|c1 os]]; try now intros [= <-].
    destruct (negb (Ascii.eqb c1 "-")); [|now intros [= <-]].
    destruct (lookup_option _) as [a'|]; [|now intros [= <-]].
    destruct ea as [|c' ea']; [discriminate|].
    destruct (option_chain a' _ (String c' ea')) as [r|e'] eqn:E; [discriminate|].
    cbn [bind]. intros [= <-]. now apply IH in E.
Qed.

Lemma take_action_raises a l st e :
  take_action a l st = Raise e -> e = SystemExit 0.
Proof. destruct a; cbn [take_action]; [now intros [= <-] | discriminate..]. Qed.

Lemma take_flags_raises flags :
  forall st e, take_flags flags st = Raise e -> e = SystemExit 0.
Proof.
  induction flags as [|a flags IH]; intros st e; cbn [take_flags]; [discriminate|].
  destruct (take_action a [] st) as [st1|e1] eqn:E; cbn [bind].
  - apply IH.
  - intros [= <-]. now apply take_action_raises in E.
Qed.

(** The parser ends a run in one way only: [SystemExit], with the code
    0 of the help or the code 2 of an error. *)
Lemma consume_raises n :
  forall its, List.length its <= n ->
  forall after st e,
    consume its after st = Raise e -> e = SystemExit 0 \/ e = SystemExit 2.
Proof.
  induction n as [|n IH]; intros its Hn after st e.
  - destruct its; [discriminate | simpl in Hn; lia].
  - destruct its as [|it rest]; [discriminate|].
    cbn [List.length] in Hn. cbn [consume].
    destruct (negb (existsb is_option (it :: rest))); [discriminate|].
    destruct it as [s|s [a|] os ea].
    + apply IH. lia.
    + destruct (resolve a os ea) as [[[flags last] src]|e0] eqn:Er; cbn [bind].
      2: { intros [= <-]. right. destruct ea as [x|]; [|discriminate].
           now apply option_chain_raises in Er. }
      assert (forall args rest0, List.length rest0 <= n ->
                (st1 <- take_flags flags st;; st2 <- take_action last args st1;;
                 consume rest0 after st2) = Raise e ->
                e = SystemExit 0 \/ e = SystemExit 2) as Hgo.
      { intros args rest0 Hr H.
        destruct (take_flags flags st) as [st1|e1] eqn:E1; cbn [bind] in H.
        - destruct (take_action last args st1) as [st2|e2] eqn:E2; cbn [bind] in H.
          + now apply IH in H.
          + injection H as <-. left. now apply take_action_raises in E2.
        - injection H as <-. left. now apply take_flags_raises in E1. }
      destruct src as [x|].
      * apply Hgo. lia.
      * destruct (takes_argument last).
        -- destruct rest as [|[v|] rest']; try (intros [= <-]; now right).
           apply Hgo. cbn [List.length] in Hn. lia.
        -- apply Hgo. lia.
    + apply IH. lia.
Qed.

Lemma classify_raises arg_strings e :
  classify arg_strings = Raise e -> e = SystemExit 2.
Proof.
  induction arg_strings as [|x l IH]; cbn [classify]; [discriminate|].
  destruct (String.eqb x "--"); [discriminate|].
  destruct (parse_optional x); try (now intros [= <-]);
    destruct (classify l); cbn [bind]; try discriminate; intros [= <-]; now apply IH.
Qed.

Lemma parse_args_raises arg_strings e :
  parse_args arg_strings = Raise e -> e = SystemExit 0 \/ e = SystemExit 2.
Proof.
  unfold parse_args.
  destruct (classify arg_strings) as [r|e0] eqn:Ec; cbn [bind].
  - destruct (consume (fst r) (snd r) initial) as [st|e1] eqn:E; cbn [bind].
    + destruct (positionals st) as [|c [|u [|? ?]]]; try (intros [= <-]; now right).
      destruct (extras st); [discriminate | intros [= <-]; now right].
    + intros [= <-]. now apply (consume_raises _ _ (le_n _)) in E.
  - intros [= <-]. right. now apply classify_raises in Ec.
Qed.

Lemma classify_in pre t post a os ea r :
  ~ In "--" pre -> t <> "--" ->
  parse_optional t = Optional a os ea ->
  classify (pre ++ t :: post) = Ok r ->
  In (O t a os ea) (fst r).
Proof.
  intros Hd Ht Hp. revert r.
  induction pre as [|x pre IH]; intros r; cbn [List.app classify].
  - apply String.eqb_neq in Ht. rewrite Ht, Hp.
    destruct (classify post) as [r0|]; cbn [bind]; [|discriminate].
    intros [= <-]. now left.
  - destruct (String.eqb_spec x "--") as [->|Hx]; [exfalso; apply Hd; now left|].
    assert (~ In "--" pre) as Hd' by (intros F; apply Hd; now right).
    destruct (parse_optional x); try discriminate;
      destruct (classify (pre ++ t :: post)) as [r0|]; cbn [bind]; try discriminate;
      intros [= <-]; right; now apply (IH Hd').
Qed.

Lemma parse_args_unknown pre t post :
  ~ In "--" pre -> unknown_option t = true ->
  exists code, parse_args (pre ++ t :: post) = Raise (SystemExit code)
               /\ (code = 0 \/ code = 2).
Proof.
  intros Hd Hu. unfold unknown_option in Hu.
  destruct (parse_optional t) as [|[a|] os ea|] eqn:Hp; try discriminate.
  assert (t <> "--") as Ht by (intros ->; discriminate).
  destruct (parse_args (pre ++ t :: post)) as [ns|e] eqn:E.
  - exfalso. unfold parse_args in E.
    destruct (classify (pre ++ t :: post)) as [r|] eqn:Ec; [|discriminate].
    cbn [bind] in E.
    destruct (consume (fst r) (snd r) initial) as [st|] eqn:Es; [|discriminate].
    cbn [bind] in E.
    pose proof (classify_in _ _ _ _ _ _ _ Hd Ht Hp Ec) as Hin.
    pose proof (consume_unknown _ _ (le_n _) _ _ _ _ _ _ Hin Es) as Hx.
    destruct (positionals st) as [|c [|u [|? ?]]]; try discriminate.
    destruct (extras st); [congruence | discriminate].
  - destruct (parse_args_raises _ _ E) as [-> | ->]; eauto.
Qed.

End Rejected.

(** X10.  An option that the parser does not know is never let through:
    when a token before any [--] looks like an option and is none of
    [-H], [--header], [--compressed], [-h] and [--help], nor a prefix or
    a form of them, [parse_context] ends with [SystemExit], and no
    command is made. *)
Theorem unknown_option_is_rejected
  (curl_command : string) (before after : list string) (token : string) :
  Shlex.split (normalize_newlines curl_command) = Ok (before ++ token :: after)%list ->
  ~ In "--" before ->
  unknown_option token = true ->
  exists code, parse_context curl_command = Raise (SystemExit code)
               /\ (code = 0 \/ code = 2).
Proof.
  intros Hs Hd Hu. unfold parse_context, curl_args. rewrite Hs. cbn [bind].
  destruct (parse_args_unknown before token after Hd Hu) as (code & -> & Hc).
  now exists code.
Qed.

Lemma unknown_option_is_rejected_witness :
  exists code, parse_context unknown_option_command = Raise (SystemExit code)
               /\ (code = 0 \/ code = 2).
Proof.
  apply (unknown_option_is_rejected unknown_option_command
           ["curl"; "'http://e.com'"] ["POST"] "-X").
  - vm_compute. reflexivity.
  - intros F. repeat (destruct F as [F|F]; [discriminate|]). exact F.
  - vm_compute. reflexivity.
Defined.

(** X11.  A [ValueError] out of [parse_context] has one of two causes: a
    quotation left open in the command, or, once the arguments are
    parsed, a header string without a colon. *)
Theorem value_error_causes (curl_command : string) :
  parse_context curl_command = Raise ValueError ->
  Shlex.split (normalize_newlines curl_command) = Raise ValueError
  \/ exists ns s, curl_args curl_command = Ok ns
                  /\ In (Argparse.Str s) (Argparse.header ns)
                  /\ Py.contains ":" s = false.
Proof.
  unfold parse_context, curl_args.
  destruct (Shlex.split (normalize_newlines curl_command)) as [tokens|e] eqn:Es;
    cbn [bind].
  - destruct (Argparse.parse_args tokens) as [ns|e] eqn:Ep; cbn [bind].
    + intros H. right. exists ns. unfold context_of in H.
      destruct (Argparse.url ns) as [u|]; [|discriminate].
      destruct (header_loop (Argparse.header ns) []) as [d|e] eqn:El;
        [discriminate|]. cbn [bind] in H. injection H as ->.
      enough (exists s, In (Argparse.Str s) (Argparse.header ns)
                        /\ Py.contains ":" s = false) as (s & H1 & H2)
          by (exists s; auto).
      revert El. generalize (@nil (string * string)).
      induction (Argparse.header ns) as [|h l IH]; intros d; cbn [header_loop];
        [discriminate|].
      destruct (header_step d h) as [d1|e1] eqn:E; cbn [bind].
      * intros H. destruct (IH _ H) as (s & H1 & H2). exists s. split; [now right | exact H2].
      * intros [= ->]. destruct h as [s|]; [|discriminate].
        exists s. split; [now left|].
        destruct (Py.contains ":" s) eqn:Ec; [|reflexivity].
        rewrite header_step_entry in E. unfold header_entry in E.
        destruct (split1_with ":"%char s Ec) as (a & b & Eab).
        unfold Py.chr in Eab. rewrite Eab in E. discriminate.
    + intros [= ->]. apply parse_args_raises in Ep as [Ep|Ep]; discriminate.
  - intros [= ->]. now left.
Qed.

Lemma value_error_causes_witness :
  Shlex.split (normalize_newlines "curl 'http://e.com") = Raise ValueError
  \/ exists ns s, curl_args "curl 'http://e.com" = Ok ns
                  /\ In (Argparse.Str s) (Argparse.header ns)
                  /\ Py.contains ":" s = false.
Proof. apply value_error_causes. vm_compute. reflexivity. Defined.

(** * The two modes *)

Section Modes.

Lemma convert_outcome (curl_command : string) (w : world) :
  convert curl_command w
  = match parse_context curl_command with
    | Raise (SystemExit 0) => (Raise (SystemExit 0), helped w)
    | r => outcome w r
    end.
Proof.
  unfold convert, iobind, call_parse_context, lift, outcome.
  now destruct (parse_context curl_command) as [ctx|[| | |[|code]]].
Qed.

Lemma header_loop_error (l : list Argparse.value) :
  forall d e, header_loop l d = Raise e -> e = ValueError \/ e = AttributeError.
Proof.
  induction l as [|h l IH]; intros d e; cbn [header_loop]; [discriminate|].
  destruct (header_step d h) as [d'|e'] eqn:E; cbn [bind]; [apply IH|].
  intros [= <-]. unfold header_step in E.
  destruct h as [s|]; [|injection E as <-; now right].
  destruct (Py.split1 ":" s) as [|a [|b [|c t]]];
    try (injection E as <-; now left).
  destruct (negb (excluded (clean_key a))); discriminate.
Qed.

(** With the headers gone through the loop, the parser's help is out of
    the question. *)
Lemma convert_loop (u : string) (l : list Argparse.value)
  (curl_command : string) (w : world) :
  parse_context curl_command
  = (d <- header_loop l [] ;; Ok (mkParsedContext u d)) ->
  convert curl_command w
  = outcome w (d <- header_loop l [] ;; Ok (mkParsedContext u d)).
Proof.
  intros H. rewrite convert_outcome, H.
  destruct (header_loop l []) as [d|e] eqn:E; cbn [bind]; [reflexivity|].
  destruct (header_loop_error _ _ _ E) as [-> | ->]; reflexivity.
Qed.

Lemma fold_left_snoc {X Y : Type} (f : X -> Y) (l : list X) (init : list Y) :
  fold_left (fun acc x => (acc ++ [f x])%list) l init = (init ++ map f l)%list.
Proof.
  revert init. induction l as [|x l IH]; intros init; cbn [fold_left map].
  - now rewrite app_nil_r.
  - rewrite IH. now rewrite <- app_assoc.
Qed.

Lemma first_of_line (h : string) :
  Py.contains (Py.chr Py.newline) h = false ->
  hd EmptyString (Py.split1 (Py.chr Py.newline) (line h)) = h.
Proof.
  intros H. change (line h) with (h ++ Py.chr Py.newline ++ EmptyString).
  now rewrite split1_first.
Qed.

(** The command that mode 0 builds from the URL and the header texts. *)
Lemma header_commands_text (u : string) (hs : list string) :
  Forall plain hs ->
  Py.join EmptyString (header_commands u (map line hs))
  = "curl " ++ quoted u
    ++ String.concat EmptyString (map (fun h => "-H " ++ quoted h) hs).
Proof.
  intros Hhs. unfold header_commands.
  rewrite (fold_left_snoc
             (fun l => "-H '" ++ hd EmptyString (Py.split1 (Py.chr Py.newline) l) ++ "'")).
  cbn [List.app]. unfold Py.join. rewrite concat_cons. rewrite map_map.
  rewrite (map_ext_in _ (fun h => "-H " ++ quoted h)).
  - unfold quoted, quote. now rewrite !append_assoc.
  - intros h Hh. rewrite Forall_forall in Hhs.
    now rewrite first_of_line by apply (Hhs h Hh).
Qed.

Lemma lines_of_lines (hs : list string) :
  Forall plain hs ->
  lines_of EmptyString (String.concat EmptyString (map line hs)) = map line hs.
Proof.
  induction 1 as [|h hs [_ Hn] _ IH]; [reflexivity|].
  cbn [map]. rewrite concat_cons. unfold line at 1.
  rewrite append_assoc.
  change (Py.chr Py.newline ++ String.concat EmptyString (map line hs))
    with (String Py.newline (String.concat EmptyString (map line hs))).
  rewrite lines_of_first by exact Hn. now rewrite IH.
Qed.

Lemma headers_text_one_line (hs : list string) :
  Forall plain hs ->
  Py.contains (Py.chr Py.newline)
              (String.concat EmptyString (map (fun h => "-H " ++ quoted h) hs))
  = false.
Proof.
  induction 1 as [|h hs [_ Hn] _ IH]; [reflexivity|].
  cbn [map]. rewrite concat_cons. unfold quoted at 1.
  now rewrite !contains_chr_app, Hn, IH.
Qed.

Lemma tokens_headers (hs : list string) :
  Forall plain hs ->
  Shlex.tokens Shlex.Blank EmptyString
               (String.concat EmptyString (map (fun h => "-H " ++ quoted h) hs))
  = Ok (flat_map (fun h => ["-H"; quoted h]) hs).
Proof.
  induction 1 as [|h hs [Hq _] _ IH]; [reflexivity|].
  cbn [map flat_map]. rewrite concat_cons. unfold quoted at 1.
  rewrite !append_assoc.
  change ("-H " ++ quote ++ h ++ quote
            ++ String.concat EmptyString (map (fun h0 => "-H " ++ quoted h0) hs))
    with (String "-" (String "H" (String " "
            (quote ++ h ++ quote
               ++ String.concat EmptyString (map (fun h0 => "-H " ++ quoted h0) hs))))).
  cbn [Shlex.tokens Shlex.whitespace Shlex.quotes Ascii.eqb Bool.eqb orb
         Py.squote Py.dquote Py.chr].
  rewrite tokens_single_quoted by exact Hq. rewrite IH. reflexivity.
Qed.

Lemma tokens_curl (u : string) (hs : list string) :
  plain u -> Forall plain hs ->
  Shlex.split
    (normalize_newlines
       ("curl " ++ quoted u
          ++ String.concat EmptyString (map (fun h => "-H " ++ quoted h) hs)))
  = Ok (curl_tokens u hs).
Proof.
  intros [Hq Hn] Hhs.
  rewrite normalize_without_newline.
  2: { unfold quoted at 1.
       rewrite !contains_chr_app, Hn, headers_text_one_line by exact Hhs.
       reflexivity. }
  unfold Shlex.split, quoted at 1. rewrite !append_assoc.
  change ("curl " ++ quote ++ u ++ quote
            ++ String.concat EmptyString (map (fun h => "-H " ++ quoted h) hs))
    with (String "c" (String "u" (String "r" (String "l" (String " "
            (quote ++ u ++ quote
               ++ String.concat EmptyString (map (fun h => "-H " ++ quoted h) hs))))))).
  cbn [Shlex.tokens Shlex.whitespace Shlex.quotes Ascii.eqb Bool.eqb orb
         Py.squote Py.dquote Py.chr append].
  rewrite tokens_single_quoted by exact Hq.
  rewrite tokens_headers by exact Hhs. reflexivity.
Qed.

Import Argparse.

Lemma classify_pairs (hs : list string) :
  classify (flat_map (fun h => ["-H"; quoted h]) hs)
  = Ok (flat_map header_pair hs, None).
Proof.
  induction hs as [|h hs IH]; [reflexivity|].
  cbn [flat_map List.app]. cbn [classify].
  change (String.eqb "-H" "--") with false.
  change (parse_optional "-H") with (Optional (Some Header) "-H" None).
  change (String.eqb (quoted h) "--") with false.
  change (parse_optional (quoted h)) with Positional.
  cbv iota. rewrite IH. reflexivity.
Qed.

Lemma consume_pairs (hs : list string) :
  forall (c u : value) (header : list value) (flag : bool),
    consume (flat_map header_pair hs) None (mkState [c; u] header flag [])
    = Ok (mkState [c; u] (header ++ map (fun h => Str (quoted h)) hs)%list flag []).
Proof.
  induction hs as [|h hs IH]; intros c u header flag.
  - cbn. now rewrite app_nil_r.
  - cbn [flat_map header_pair List.app].
    cbn [consume existsb is_option orb negb resolve bind takes_argument
           take_flags take_action positionals st_header st_compressed extras].
    change (get_values [quoted h]) with (Str (quoted h)).
    rewrite IH. cbn [map]. now rewrite <- app_assoc.
Qed.

Lemma parse_args_curl (u : string) (hs : list string) :
  parse_args (curl_tokens u hs)
  = Ok (mkNamespace (Str "curl") (Str (quoted u))
                    (map (fun h => Str (quoted h)) hs) false).
Proof.
  unfold parse_args, curl_tokens. cbn [classify].
  change (String.eqb "curl" "--") with false.
  change (parse_optional "curl") with Positional.
  change (String.eqb (quoted u) "--") with false.
  change (parse_optional (quoted u)) with Positional.
  cbv iota. rewrite classify_pairs. cbn [bind fst snd].
  rewrite !consume_argument.
  change (take_argument (quoted u) (take_argument "curl" initial))
    with (mkState [Str "curl"; Str (quoted u)] [] false []).
  rewrite consume_pairs. reflexivity.
Qed.

End Modes.

Lemma parse_context_curl (u : string) (hs : list string) :
  plain u -> Forall plain hs ->
  parse_context (Py.join EmptyString (header_commands u (map line hs)))
  = (d <- header_loop (map (fun h => Argparse.Str (quoted h)) hs) [] ;;
     Ok (mkParsedContext u d)).
Proof.
  intros Hu Hhs. unfold parse_context, curl_args.
  rewrite header_commands_text by exact Hhs.
  rewrite tokens_curl by assumption. cbn [bind].
  rewrite parse_args_curl. cbn [bind]. unfold context_of.
  cbn [Argparse.url Argparse.header]. unfold quoted at 2.
  now rewrite clean_url_quoted.
Qed.

(** X12.  Mode 1: the curl command is all the text after the first line,
    newlines included.  When it parses, the command is printed on a line
    of its own and the same text goes to the clipboard.  When it does
    not, the run ends on the error with the clipboard untouched, and
    nothing is written after the prompts but the help of the parser,
    which comes with the exit status 0 of [-h] and [--help]. *)
Theorem mode_1_outcome (curl_command : string) :
  run (line "1" ++ curl_command)
  = match parse_context curl_command with
    | Ok ctx =>
        (Ok tt, printed mode_1_world (generate_streamlink_command ctx))
    | Raise (SystemExit 0) => (Raise (SystemExit 0), helped mode_1_world)
    | Raise e => (Raise e, mode_1_world)
    end.
Proof.
  rewrite run_mode_1, convert_outcome.
  now destruct (parse_context curl_command) as [ctx|[| | |[|code]]].
Qed.

(** X13.  The command of mode 0, built from a URL and header texts that
    have no single quote and no newline, is read as [curl], the URL and
    one [-H] for each header text: the missing space before [-H] does
    no harm, and the parsed context is that of the header texts put
    through the loop in their order, with the URL as typed. *)
Theorem mode_0_command (u : string) (header_texts : list string) :
  plain u -> Forall plain header_texts ->
  Shlex.split
    (normalize_newlines
       (Py.join EmptyString (header_commands u (map line header_texts))))
  = Ok (curl_tokens u header_texts)
  /\ parse_context (Py.join EmptyString (header_commands u (map line header_texts)))
     = (d <- header_loop (map (fun h => Argparse.Str (quoted h)) header_texts) [] ;;
        Ok (mkParsedContext u d)).
Proof.
  intros Hu Hhs. split.
  - rewrite header_commands_text by exact Hhs. now apply tokens_curl.
  - now apply parse_context_curl.
Qed.

Lemma mode_0_command_witness :
  parse_context
    (Py.join EmptyString
             (header_commands "http://e.com" (map line ["Accept: */*"; "X: y z"])))
  = Ok (mkParsedContext "http://e.com" [("Accept", "*/*"); ("X", "'y z'")]).
Proof.
  assert (Hu : plain "http://e.com") by (split; reflexivity).
  assert (Hhs : Forall plain ["Accept: */*"; "X: y z"])
    by (repeat (constructor; try (split; reflexivity))).
  rewrite (proj2 (mode_0_command "http://e.com" ["Accept: */*"; "X: y z"] Hu Hhs)).
  reflexivity.
Defined.

(** X14.  Mode 0 as a whole: after the answer 0, the URL and one line that
    is dropped, every further line is a header; with no single quote in
    the URL and the headers, the run ends as the loop over the quoted
    header texts decides: the command printed and copied, or the error
    of the first header without a colon. *)
Theorem mode_0_outcome (u first : string) (header_texts : list string) :
  plain u ->
  Py.contains (Py.chr Py.newline) first = false ->
  Forall plain header_texts ->
  run (line "0" ++ line u ++ line first
         ++ String.concat EmptyString (map line header_texts))
  = outcome mode_0_world
            (d <- header_loop (map (fun h => Argparse.Str (quoted h)) header_texts) [] ;;
             Ok (mkParsedContext u d)).
Proof.
  intros Hu Hf Hhs.
  rewrite run_mode_0 by (apply Hu || exact Hf).
  rewrite lines_of_lines by exact Hhs.
  apply convert_loop. now apply parse_context_curl.
Qed.

Lemma mode_0_outcome_witness :
  run (line "0" ++ line "http://e.com" ++ line "GET / HTTP/1.1"
         ++ String.concat EmptyString (map line ["Accept: */*"; "X: y z"]))
  = (Ok tt,
     printed mode_0_world
       "streamlink http://e.com best --http-header Accept=*/* --http-header X='y z'").
Proof.
  assert (Hu : plain "http://e.com") by (split; reflexivity).
  assert (Hhs : Forall plain ["Accept: */*"; "X: y z"])
    by (repeat (constructor; try (split; reflexivity))).
  rewrite (mode_0_outcome "http://e.com" "GET / HTTP/1.1" ["Accept: */*"; "X: y z"]
             Hu eq_refl Hhs).
  reflexivity.
Defined.

(** * The parser on regular command lines *)

Section Pieces.

Import Argparse.

Lemma undashed_positional (s : string) :
  Py.startswith "-" s = false ->
  String.eqb s "--" = false
  /\ parse_optional s = Positional
  /\ get_values [s] = Str s.
Proof.
  destruct s as [|c s]; [intros _; repeat split; reflexivity|].
  unfold Py.startswith. rewrite prefix_cons, prefix_nil, andb_true_r.
  intros H. assert (Ascii.eqb c "-" = false) as H' by now rewrite Ascii.eqb_sym.
  repeat split.
  - cbn [String.eqb]. now rewrite H'.
  - cbn [parse_optional]. now rewrite H'.
  - unfold get_values. cbn [remove_first String.eqb]. now rewrite H.
Qed.

Lemma classify_pieces (ps : list piece) :
  Forall undashed ps ->
  classify (flat_map piece_tokens ps) = Ok (flat_map piece_items ps, None).
Proof.
  induction 1 as [|p ps Hp _ IH]; [reflexivity|].
  cbn [flat_map]. destruct p as [s|v|v|]; cbn [piece_tokens piece_items List.app].
  - destruct (undashed_positional s Hp) as (E1 & E2 & _).
    cbn [classify]. now rewrite E1, E2, IH.
  - destruct (undashed_positional v Hp) as (E1 & E2 & _).
    cbn [classify].
    change (String.eqb "-H" "--") with false.
    change (parse_optional "-H") with (Optional (Some Header) "-H" None).
    cbv iota. now rewrite E1, E2, IH.
  - destruct (undashed_positional v Hp) as (E1 & E2 & _).
    cbn [classify].
    change (String.eqb "--header" "--") with false.
    change (parse_optional "--header")
      with (Optional (Some Header) "--header" None).
    cbv iota. now rewrite E1, E2, IH.
  - cbn [classify].
    change (String.eqb "--compressed" "--") with false.
    change (parse_optional "--compressed")
      with (Optional (Some Compressed) "--compressed" None).
    cbv iota. now rewrite IH.
Qed.

Lemma match_arguments_partial_nil (i : nat) : match_arguments_partial i [] = [].
Proof. induction i as [|i IH]; [reflexivity|]. cbn. exact IH. Qed.

Lemma consume_tail_nil (st : pstate) :
  consume_tail [] None st = add_extras [] st.
Proof.
  unfold consume_tail. cbn [map List.app].
  now rewrite match_arguments_partial_nil.
Qed.

Lemma consume_pieces (ps : list piece) :
  Forall undashed ps ->
  forall st,
    consume (flat_map piece_items ps) None st
    = Ok (mkState
            (positionals st
               ++ map Str (firstn (2 - List.length (positionals st)) (words ps)))%list
            (st_header st ++ map Str (header_values ps))%list
            (st_compressed st || flagged ps)
            (extras st
               ++ skipn (2 - List.length (positionals st)) (words ps))%list).
Proof.
  induction 1 as [|p ps Hp _ IH]; intros [pos hdr cmp ex].
  - cbn [flat_map consume]. rewrite consume_tail_nil.
    unfold add_extras.
    cbn [positionals st_header st_compressed extras words header_values
           flagged flat_map existsb map].
    rewrite firstn_nil, skipn_nil. cbn [map].
    now rewrite !app_nil_r, orb_false_r.
  - cbn [flat_map]. destruct p as [s|v|v|]; cbn [piece_items List.app].
    + destruct (undashed_positional s Hp) as (_ & _ & E).
      rewrite consume_argument, IH. unfold take_argument, take_positional, add_extras.
      cbn [positionals st_header st_compressed extras words header_values
             flagged flat_map existsb List.app orb].
      fold (words ps) (header_values ps) (flagged ps). rewrite E.
      destruct pos as [|a [|b pos]]; cbn [List.length Nat.ltb Nat.leb Nat.sub
        positionals st_header st_compressed extras firstn skipn map List.app];
        rewrite <- ?app_assoc; reflexivity.
    + destruct (undashed_positional v Hp) as (_ & _ & E).
      cbn [consume existsb is_option orb negb resolve bind takes_argument
             take_flags take_action positionals st_header st_compressed extras].
      rewrite E, IH.
      cbn [positionals st_header st_compressed extras words header_values
             flagged flat_map existsb List.app orb map].
      fold (words ps) (header_values ps) (flagged ps).
      now rewrite <- app_assoc.
    + destruct (undashed_positional v Hp) as (_ & _ & E).
      cbn [consume existsb is_option orb negb resolve bind takes_argument
             take_flags take_action positionals st_header st_compressed extras].
      rewrite E, IH.
      cbn [positionals st_header st_compressed extras words header_values
             flagged flat_map existsb List.app orb map].
      fold (words ps) (header_values ps) (flagged ps).
      now rewrite <- app_assoc.
    + unfold flag_item.
      cbn [consume existsb is_option orb negb resolve bind takes_argument
             take_flags take_action positionals st_header st_compressed extras].
      rewrite IH.
      cbn [positionals st_header st_compressed extras words header_values
             flagged flat_map existsb List.app orb map].
      fold (words ps) (header_values ps) (flagged ps).
      now rewrite orb_true_r.
Qed.

End Pieces.

(** X15.  On a command line made of words, headers given with [-H] or
    [--header] and the flag [--compressed], in any order, where no word
    and no header value starts with a dash: the parser succeeds exactly
    when there are two words, which are the command and the URL; the
    headers are kept in their order, and the flag is recorded.  With any
    other number of words the parser exits with status 2. *)
Theorem arguments_in_any_order (ps : list piece) :
  Forall undashed ps ->
  Argparse.parse_args (flat_map piece_tokens ps)
  = match words ps with
    | [c; u] =>
        Ok (Argparse.mkNamespace (Argparse.Str c) (Argparse.Str u)
              (map Argparse.Str (header_values ps)) (flagged ps))
    | _ => Raise (SystemExit 2)
    end.
Proof.
  intros H. unfold Argparse.parse_args.
  rewrite classify_pieces by exact H. cbn [bind fst snd].
  rewrite consume_pieces by exact H.
  cbn [bind Argparse.initial Argparse.positionals Argparse.st_header
         Argparse.st_compressed Argparse.extras List.length Nat.sub List.app orb].
  destruct (words ps) as [|a [|b [|c w]]]; reflexivity.
Qed.

Lemma arguments_in_any_order_witness :
  Argparse.parse_args
    ["curl"; "--header"; "'A: b'"; "--compressed"; "'u'"; "-H"; "'C: d'"]
  = Ok (Argparse.mkNamespace (Argparse.Str "curl") (Argparse.Str "'u'")
          [Argparse.Str "'A: b'"; Argparse.Str "'C: d'"] true).
Proof.
  apply (arguments_in_any_order
           [Word "curl"; Long "'A: b'"; Flag; Word "'u'"; Short "'C: d'"]).
  repeat constructor.
Defined.

(** * A continuation reads as a space *)

Section Spaces.

Lemma prefix_space_kept (c : ascii) (r b : string) :
  String.prefix continuation (String c r) = false ->
  String.prefix continuation (String c (r ++ " " ++ b)) = false.
Proof.
  rewrite !prefix_continuation. destruct (Ascii.eqb " " c); [|reflexivity].
  cbn [andb]. unfold after_space.
  destruct r as [|d [|e r]]; cbn [append].
  - intros _. reflexivity.
  - intros _. now rewrite !prefix_cons, andb_false_r.
  - now rewrite !prefix_cons, !prefix_nil.
Qed.

Lemma normalize_app_space (a b : string) :
  String.prefix after_space b = false ->
  normalize_newlines (a ++ " " ++ b)
  = normalize_newlines a ++ " " ++ normalize_newlines b.
Proof.
  intros Hb. induction a as [|r IH|c r Hp IH] using continuation_ind.
  - cbn [append]. rewrite normalize_miss; [reflexivity|].
    now rewrite prefix_continuation, Hb.
  - rewrite append_assoc, !normalize_hit, IH. reflexivity.
  - change (String c r ++ " " ++ b) with (String c (r ++ " " ++ b)).
    rewrite normalize_miss by (now apply prefix_space_kept).
    rewrite normalize_miss by exact Hp. now rewrite IH.
Qed.

End Spaces.

(** X16.  A continuation stands for a space: unless the text after it
    starts with a backslash and a newline, a command with a continuation
    is normalised, and so parsed, as the command with a single space in
    its place. *)
Theorem continuation_reads_as_space (a b : string) :
  String.prefix after_space b = false ->
  normalize_newlines (a ++ continuation ++ b) = normalize_newlines (a ++ " " ++ b)
  /\ parse_context (a ++ continuation ++ b) = parse_context (a ++ " " ++ b).
Proof.
  intros Hb.
  assert (normalize_newlines (a ++ continuation ++ b)
          = normalize_newlines (a ++ " " ++ b)) as E
      by now rewrite normalize_app_continuation, normalize_app_space.
  split; [exact E|]. unfold parse_context, curl_args. now rewrite E.
Qed.

Lemma continuation_reads_as_space_witness :
  parse_context ("curl 'http://e.com'" ++ continuation ++ "-H 'A: b'")
  = parse_context ("curl 'http://e.com'" ++ " " ++ "-H 'A: b'").
Proof.
  apply (continuation_reads_as_space "curl 'http://e.com'" "-H 'A: b'").
  reflexivity.
Defined.

(** * What a run leaves behind *)

Section Runs.


End Runs.


